(** * NDK client core and the NIP-46 remote signer

    A shallow embedding of [src/index.ts] (class [NDK]) and of the NIP-46
    client signer (class [NDKNip46Signer]), with the properties of the
    specification stated and proved over it.

    Conventions.
    - A JavaScript value that may be [undefined] is an [option]; objects are
      always truthy, so [!x] on an optional object is [x = None].
    - A promise is its settlement state ([Pending], [Fulfilled], [Rejected]);
      [resolve] and [reject] act only on a pending promise.
    - Handlers registered with [on] are folded over the stream of signals the
      subscription hands to its listeners; handlers registered with [once]
      live in a listener table and are removed when they fire. *)

From stdpp Require Import gmap strings list fin_maps.
From Stdlib Require Import ZArith Ascii.

Local Open Scope string_scope.
Local Open Scope list_scope.
Local Open Scope Z_scope.

#[local] Set Warnings "-register-all".

(** ** JavaScript values and promises *)

Inductive JSValue : Type :=
  | JUndefined
  | JNull
  | JBool (b : bool)
  | JNumber (z : Z)
  | JString (s : string)
  | JArray (items : list JSValue)
  | JObject (members : list (string * JSValue))
  | JError (message : string).

(** [new Error(message)] *)
Definition Error (message : string) : JSValue := JError message.

Inductive Promise (A : Type) : Type :=
  | Pending
  | Fulfilled (value : A)
  | Rejected (reason : JSValue).

Arguments Pending {A}.
Arguments Fulfilled {A} value.
Arguments Rejected {A} reason.

Definition resolve {A} (p : Promise A) (v : A) : Promise A :=
  match p with Pending => Fulfilled v | _ => p end.

Definition reject {A} (p : Promise A) (r : JSValue) : Promise A :=
  match p with Pending => Rejected r | _ => p end.

Definition settled {A} (p : Promise A) : bool :=
  match p with Pending => false | _ => true end.

(** ** Events, users, relay sets *)

(** Object identity of a client instance, used for the [ndk] back-reference
    that the client assigns to events and users. *)
Definition NDKRef := nat.

Record NostrEvent : Type := {
  created_at : Z;
  kind : Z;
  pubkey : string;
  tags : list (list string);
  content : string;
  id : string;
  sig : string
}.

Record NDKEvent : Type := {
  rawEvent : NostrEvent;
  ndk : option NDKRef
}.

(** [event.ndk = this] *)
Definition set_ndk (this : NDKRef) (event : NDKEvent) : NDKEvent :=
  {| rawEvent := rawEvent event; ndk := Some this |}.

Record NDKUserParams : Type := {
  npub : option string;
  hexpubkey : option string
}.

Record NDKUser : Type := {
  user_npub : option string;
  user_hexpubkey : option string;
  user_ndk : option NDKRef
}.

(** Modelled from the spec: the [NDKUser] constructor ([user/index.js] is
    not part of the sources). "Pure construction, no I/O": the user carries
    the identifying parameters it was built from and no client yet. *)
Definition NDKUser_new (opts : NDKUserParams) : NDKUser :=
  {| user_npub := npub opts; user_hexpubkey := hexpubkey opts;
     user_ndk := None |}.

Record NDKRelaySet : Type := { relays : gset string }.

(** Modelled from the spec: [NDKRelaySet.fromRelayUrls] ([relay/sets] is not
    part of the sources). "A set of relay endpoints, deduplicated by
    address." *)
Definition fromRelayUrls (urls : list string) : NDKRelaySet :=
  {| relays := list_to_set urls |}.

(** The [NDKSigner] interface, as far as the client and the remote signer
    use it: the outcome of [user()]. *)
Record NDKSigner : Type := { signer_user : Promise NDKUser }.

(** ** The client *)

Record NDKConstructorParams : Type := {
  explicitRelayUrls : option (list string);
  devWriteRelayUrls : option (list string);
  opt_signer : option NDKSigner
}.

Record NDK : Type := {
  this_ref : NDKRef;
  pool : list string;
  signer : option NDKSigner;
  devWriteRelaySet : option NDKRelaySet
}.

(** [new NDK(opts)]; [ref] is the identity of the object being built.
    [opts.explicitRelayUrls||[]]: an array, even empty, is truthy. *)
Definition NDK_new (ref : NDKRef) (opts : NDKConstructorParams) : NDK :=
  {| this_ref := ref;
     pool := default [] (explicitRelayUrls opts);
     signer := opt_signer opts;
     devWriteRelaySet :=
       match devWriteRelayUrls opts with
       | Some urls => Some (fromRelayUrls urls)
       | None => None
       end |}.

(** [getUser] *)
Definition getUser (this : NDK) (opts : NDKUserParams) : NDKUser :=
  let user := NDKUser_new opts in
  {| user_npub := user_npub user; user_hexpubkey := user_hexpubkey user;
     user_ndk := Some (this_ref this) |}.

(** *** Effects of the client's methods

    A method body is run to the trace of its observable effects, in program
    order, and its completion value; a [Throw] ends the body. *)

Inductive Effect : Type :=
  | Emit (name : string)
  | RelaySetPublish (relaySet : NDKRelaySet) (event : NDKEvent)
  | Throw (error : JSValue).

Definition Body (A : Type) : Type := list Effect * option A.

#[export] Instance Body_ret : MRet Body := fun A a => ([], Some a).

#[export] Instance Body_bind : MBind Body := fun A B k m =>
  match m with
  | (t, Some a) => let '(t', r) := k a in (t ++ t', r)
  | (t, None) => (t, None)
  end.

Definition emit (name : string) : Body unit := ([Emit name], Some ()).
Definition throw {A} (error : JSValue) : Body A := ([Throw error], None).
Definition relaySet_publish (relaySet : NDKRelaySet) (event : NDKEvent)
  : Body unit := ([RelaySetPublish relaySet event], Some ()).

(** The promise an [async] method returns for a body without [await]. *)
Definition async {A} (m : Body A) : Promise A :=
  match m with
  | (_, Some a) => Fulfilled a
  | (t, None) =>
      match last t with Some (Throw e) => Rejected e | _ => Pending end
  end.

(** Position of the first occurrence of an effect in a trace. *)
Fixpoint index_of (P : Effect → bool) (t : list Effect) : option nat :=
  match t with
  | [] => None
  | e :: t' => if P e then Some 0%nat else S <$> index_of P t'
  end.

Definition is_emit (name : string) (e : Effect) : bool :=
  match e with Emit n => bool_decide (n = name) | _ => false end.

Definition is_throw (e : Effect) : bool :=
  match e with Throw _ => true | _ => false end.

Section Client.

(** [calculateRelaySetFromEvent] ([relay/sets/calculate.js]) is not part
    of the sources; [publish] only calls it. *)
Variable calculateRelaySetFromEvent : NDK → NDKEvent → NDKRelaySet.

(** [publish] *)
Definition publish (this : NDK) (event : NDKEvent)
    (relaySet : option NDKRelaySet) : Body unit :=
  let relaySet :=
    match relaySet with
    | None =>
        match devWriteRelaySet this with
        | Some devSet => devSet
        | None => calculateRelaySetFromEvent this event
        end
    | Some given => given
    end in
  relaySet_publish relaySet event.

(** [assertSigner] *)
Definition assertSigner (this : NDK) : Body unit :=
  match signer this with
  | None => emit "signerRequired" ;; throw (Error "Signer required")
  | Some _ => mret ()
  end.

End Client.

(** ** Subscriptions *)

Record NDKFilter : Type := {
  kinds : list Z;
  authors : list string;
  ids : list string;
  p_tags : list string;
  limit : option Z
}.

(** What a subscription hands to its listeners: an ['event'] or the overall
    stream-end ['eose']. *)
Inductive Signal : Type :=
  | SEvent (event : NDKEvent)
  | SEose.

(** Options objects are property bags: [{...opts, closeOnEose: true}] is an
    insertion that overrides the property. *)
Record NDKSubscription : Type := {
  sub_ndk : NDKRef;
  sub_filter : NDKFilter;
  sub_opts : gmap string JSValue;
  sub_relaySet : option NDKRelaySet;
  sub_started : bool
}.

(** [subscribe]: construct, then [start()]. *)
Definition subscribe (this : NDK) (filter : NDKFilter)
    (opts : gmap string JSValue) (relaySet : option NDKRelaySet)
  : NDKSubscription :=
  {| sub_ndk := this_ref this; sub_filter := filter; sub_opts := opts;
     sub_relaySet := relaySet; sub_started := true |}.

Definition autoClosing (s : NDKSubscription) : bool :=
  match sub_opts s !! "closeOnEose" with
  | Some (JBool true) => true
  | _ => false
  end.

(** Modelled from the spec: [NDKSubscription] delivery ([subscription/] is
    not part of the sources). "[closed] is reached ... automatically when
    [closeOnEose] is configured true and [streamEnded] is reached. Events
    delivered after [closed] are discarded." *)
Fixpoint until_closed (signals : list Signal) : list Signal :=
  match signals with
  | [] => []
  | SEose :: _ => [SEose]
  | s :: rest => s :: until_closed rest
  end.

Definition delivered (s : NDKSubscription) (signals : list Signal)
  : list Signal :=
  if autoClosing s then until_closed signals else signals.

Section Fetch.

(** Modelled from the spec: [NDKEvent.tagId] ([events/index.js] is not
    part of the sources). The identity key is derived from the signed
    payload: "regular events are identified by content hash; replaceable
    events are identified by (kind, author[, distinguishing tag])". Which
    kinds are replaceable is left open, so the derivation is a parameter. *)
Variable tagIdOf : NostrEvent → string.

Definition tagId (event : NDKEvent) : string := tagIdOf (rawEvent event).

(** "Ties are implementation-defined but must be deterministic": whether
    the earlier-seen copy is kept when both timestamps are equal. *)
Variable tieKeepsExisting : bool.

(** Modelled from the spec: [dedupEvent] ([events/dedup.js] is not part of
    the sources). "The copy with the later timestamp wins." *)
Definition dedupEvent (event1 event2 : NDKEvent) : NDKEvent :=
  let t1 := created_at (rawEvent event1) in
  let t2 := created_at (rawEvent event2) in
  if t2 <? t1 then event1
  else if t1 <? t2 then event2
  else if tieKeepsExisting then event1 else event2.

(** *** [fetchEvent] *)

Definition fetchEvent_subscription (this : NDK) (filter : NDKFilter)
    (opts : gmap string JSValue) : NDKSubscription :=
  subscribe this filter (<["closeOnEose" := JBool true]> opts) None.

(** The ['event'] listener; there is no ['eose'] listener. *)
Definition fetchEvent_on (this : NDK) (promise : Promise NDKEvent)
    (signal : Signal) : Promise NDKEvent :=
  match signal with
  | SEvent event =>
      let event := set_ndk (this_ref this) event in
      resolve promise event
  | SEose => promise
  end.

(** The promise of [fetchEvent] after the subscription has handed
    [signals] to its listeners. *)
Definition fetchEvent (this : NDK) (signals : list Signal)
  : Promise NDKEvent :=
  foldl (fetchEvent_on this) Pending signals.

(** *** [fetchEvents] *)

Record FetchEvents : Type := {
  events : gmap string NDKEvent;
  fetched : Promise (list NDKEvent)
}.

Definition fetchEvents_subscription (this : NDK) (filter : NDKFilter)
    (opts : gmap string JSValue) : NDKSubscription :=
  subscribe this filter (<["closeOnEose" := JBool true]> opts) None.

(** [events.values()], collected into a [Set]: distinct keys hold distinct
    objects, the order of a [Set] is immaterial. *)
Definition values (m : gmap string NDKEvent) : list NDKEvent :=
  (map_to_list m).*2.

Definition fetchEvents_on (this : NDK) (st : FetchEvents)
    (signal : Signal) : FetchEvents :=
  match signal with
  | SEvent event =>
      let existingEvent := events st !! tagId event in
      let event :=
        match existingEvent with
        | Some existingEvent => dedupEvent existingEvent event
        | None => event
        end in
      let event := set_ndk (this_ref this) event in
      {| events := <[tagId event := event]> (events st);
         fetched := fetched st |}
  | SEose =>
      {| events := events st;
         fetched := resolve (fetched st) (values (events st)) |}
  end.

Definition fetchEvents_run (this : NDK) (signals : list Signal)
  : FetchEvents :=
  foldl (fetchEvents_on this) {| events := ∅; fetched := Pending |} signals.

Definition fetchEvents (this : NDK) (signals : list Signal)
  : Promise (list NDKEvent) :=
  fetched (fetchEvents_run this signals).

(** The dedup rule applied to every copy of identity [key], in the order
    the copies were observed. *)
Definition merge_duplicates (key : string) (observed : list NDKEvent)
  : option NDKEvent :=
  foldl (fun acc event =>
           if bool_decide (tagId event = key) then
             Some (match acc with
                   | Some kept => dedupEvent kept event
                   | None => event
                   end)
           else acc)
        None observed.

End Fetch.

(** ** The remote signer (NIP-46) *)

Record NDKRpcRequest : Type := {
  request_id : string;
  request_target : string;
  request_method : string;
  request_params : list string
}.

Record NDKRpcResponse : Type := {
  response_id : string;
  response_result : option string;
  response_error : option string
}.

(** What the signer's promises settle with. *)
Inductive Value : Type :=
  | VUser (user : NDKUser)
  | VJS (v : JSValue).

(** The closures the signer registers with [rpc.once]; each captures the
    promise it settles (an index into the heap of promise objects). *)
Inductive Listener : Type :=
  | ConnectListener (promise : nat) (user : NDKUser)
  | SignListener (promise : nat).

Definition listener_promise (l : Listener) : nat :=
  match l with ConnectListener p _ => p | SignListener p => p end.

(** The [NDKNostrRpc] emitter with its one-shot listeners, the requests and
    subscriptions it was asked for, and the promise objects created by the
    signer's methods. *)
Record Runtime : Type := {
  rpc_listeners : gmap string (list Listener);
  rpc_subscriptions : list NDKFilter;
  rpc_requests : list NDKRpcRequest;
  heap : list (Promise Value)
}.

(** JavaScript truthiness of an optional string: [undefined] and the empty
    string are falsy. *)
Definition truthy (s : option string) : bool :=
  match s with
  | Some s => negb (String.eqb s EmptyString)
  | None => false
  end.

(** An optional string as a JavaScript value. *)
Definition js_string (s : option string) : JSValue :=
  match s with Some s => JString s | None => JUndefined end.

(** Property read [json.name]: [None] is the [TypeError] raised on [null]
    and [undefined]; the last of repeated members wins; primitives and
    arrays have no such property. *)
Definition js_member (json : JSValue) (name : string) : option JSValue :=
  match json with
  | JUndefined | JNull => None
  | JObject members =>
      Some (default JUndefined
              (foldl (fun acc kv => if String.eqb (fst kv) name
                                    then Some (snd kv) else acc)
                     None members))
  | _ => Some JUndefined
  end.

(** [`response-${id}`] *)
Definition response_event (id : string) : string :=
  String.append "response-" id.

(** [rpc.once(name, listener)] *)
Definition once (name : string) (l : Listener) (rt : Runtime) : Runtime :=
  {| rpc_listeners :=
       <[name := default [] (rpc_listeners rt !! name) ++ [l]]>
         (rpc_listeners rt);
     rpc_subscriptions := rpc_subscriptions rt;
     rpc_requests := rpc_requests rt;
     heap := heap rt |}.

(** [new Promise(...)]: a fresh pending promise object. *)
Definition new_promise (rt : Runtime) : nat * Runtime :=
  (length (heap rt),
   {| rpc_listeners := rpc_listeners rt;
      rpc_subscriptions := rpc_subscriptions rt;
      rpc_requests := rpc_requests rt;
      heap := heap rt ++ [Pending] |}).

(** [rpc.subscribe(filter)] *)
Definition rpc_subscribe (filter : NDKFilter) (rt : Runtime) : Runtime :=
  {| rpc_listeners := rpc_listeners rt;
     rpc_subscriptions := rpc_subscriptions rt ++ [filter];
     rpc_requests := rpc_requests rt;
     heap := heap rt |}.

(** [rpc.sendRequest(target, method, params, id)]: the request handed to
    the RPC layer. *)
Definition sendRequest (target method : string) (params : list string)
    (id : string) (rt : Runtime) : Runtime :=
  {| rpc_listeners := rpc_listeners rt;
     rpc_subscriptions := rpc_subscriptions rt;
     rpc_requests :=
       rpc_requests rt ++
         [{| request_id := id; request_target := target;
             request_method := method; request_params := params |}];
     heap := heap rt |}.

Record NDKNip46Signer : Type := {
  nip46_ndk : NDK;
  remotePubkey : string;
  localSigner : NDKSigner
}.

(** The promise an [async] method returns: settled on the spot, or the
    promise object [handle], handed back after [await rpc.sendRequest]. *)
Inductive Returned : Type :=
  | Now (p : Promise Value)
  | Later (handle : nat).

Section RemoteSigner.

(** [JSON.parse]; [None] is the [SyntaxError]. *)
Variable JSON_parse : string → option JSValue.
(** [JSON.stringify] on an event. *)
Variable JSON_stringify : NostrEvent → string.
(** [NDKUser.hexpubkey()] ([user/index.js] is not part of the sources). *)
Variable hexpubkey_of : NDKUser → string.

(** The constructor; [generated] is what [NDKPrivateKeySigner.generate()]
    yields when it is called. *)
Definition NDKNip46Signer_new (generated : NDKSigner) (ndk : NDK)
    (remotePubkey : string) (localSigner : option NDKSigner)
  : NDKNip46Signer :=
  {| nip46_ndk := ndk;
     remotePubkey := remotePubkey;
     localSigner :=
       match localSigner with
       | None => generated
       | Some localSigner => localSigner
       end |}.

(** [user] *)
Definition user (this : NDKNip46Signer) : Promise NDKUser :=
  signer_user (localSigner this).

(** The listener of [blockUntilReady] (lines 52-58) on its promise. *)
Definition connect_listener (user : NDKUser) (response : NDKRpcResponse)
    (promise : Promise Value) : Promise Value :=
  if bool_decide (response_result response = Some "ack") then
    resolve promise (VUser user)
  else
    reject promise (js_string (response_error response)).

(** The listener of [sign] (lines 80-88) on its promise. A [SyntaxError]
    of [JSON.parse] or a [TypeError] of the property read is raised inside
    the [async] listener and settles nothing. *)
Definition sign_listener (response : NDKRpcResponse)
    (promise : Promise Value) : Promise Value :=
  if negb (truthy (response_error response)) then
    match response_result response ≫= JSON_parse with
    | Some json =>
        match js_member json "sig" with
        | Some sig => resolve promise (VJS sig)
        | None => promise
        end
    | None => promise
    end
  else
    reject promise (js_string (response_error response)).

Definition run_listener (response : NDKRpcResponse) (h : list (Promise Value))
    (l : Listener) : list (Promise Value) :=
  match l with
  | ConnectListener p user => alter (connect_listener user response) p h
  | SignListener p => alter (sign_listener response) p h
  end.

(** [rpc.emit(name, response)]: one-shot listeners are removed, then
    called in the order they were registered. *)
Definition rpc_emit (name : string) (response : NDKRpcResponse)
    (rt : Runtime) : Runtime :=
  {| rpc_listeners := delete name (rpc_listeners rt);
     rpc_subscriptions := rpc_subscriptions rt;
     rpc_requests := rpc_requests rt;
     heap := foldl (run_listener response) (heap rt)
               (default [] (rpc_listeners rt !! name)) |}.

(** Modelled from the spec: the routing of inbound responses by
    [NDKNostrRpc] ([signers/nip46/rpc.js] is not part of the sources).
    Every inbound response is routed by its correlation id, here to the
    one-shot listeners of [`response-<id>`]. *)
Definition receive (rt : Runtime) (response : NDKRpcResponse) : Runtime :=
  rpc_emit (response_event (response_id response)) response rt.

Definition receive_all (rt : Runtime) (responses : list NDKRpcResponse)
  : Runtime :=
  foldl receive rt responses.

(** [blockUntilReady]; [connectId] is the random token drawn by
    [Math.random().toString(36).substring(7)]. *)
Definition blockUntilReady (this : NDKNip46Signer) (connectId : string)
    (rt : Runtime) : Returned * Runtime :=
  match signer_user (localSigner this) with
  | Pending => (Now Pending, rt)
  | Rejected reason => (Now (Rejected reason), rt)
  | Fulfilled localUser =>
      let user :=
        getUser (nip46_ndk this)
          {| npub := user_npub localUser; hexpubkey := None |} in
      let rt :=
        rpc_subscribe
          {| kinds := [24133]; authors := []; ids := [];
             p_tags := [hexpubkey_of localUser]; limit := None |} rt in
      let '(promise, rt) := new_promise rt in
      let rt :=
        once (response_event connectId) (ConnectListener promise user) rt in
      let rt :=
        sendRequest (remotePubkey this) "connect"
          [hexpubkey_of localUser] connectId rt in
      (Later promise, rt)
  end.

(** [encrypt] and [decrypt] *)
Definition encrypt (this : NDKNip46Signer) (recipient : NDKUser)
    (value : string) (rt : Runtime) : Promise string * Runtime :=
  (async (throw (Error "not implemented")), rt).

Definition decrypt (this : NDKNip46Signer) (sender : NDKUser)
    (value : string) (rt : Runtime) : Promise string * Runtime :=
  (async (throw (Error "not implemented")), rt).

(** [sign] *)
Definition sign (this : NDKNip46Signer) (event : NostrEvent)
    (connectId : string) (rt : Runtime) : Returned * Runtime :=
  let '(promise, rt) := new_promise rt in
  let rt := once (response_event connectId) (SignListener promise) rt in
  let rt :=
    sendRequest (remotePubkey this) "sign_event"
      [JSON_stringify event] connectId rt in
  (Later promise, rt).

(** The state of the promise a call returned, given the state [sent] of
    the awaited [rpc.sendRequest] and the runtime reached. A rejected
    [await] rejects the call; a pending one leaves it pending. *)
Definition outcome {R} (sent : Promise R) (call : Returned) (rt : Runtime)
  : Promise Value :=
  match call with
  | Now p => p
  | Later handle =>
      match sent with
      | Fulfilled _ => default Pending (heap rt !! handle)
      | Rejected reason => Rejected reason
      | Pending => Pending
      end
  end.

(** What a listener makes of a response, on the promise it captured. *)
Definition listener_apply (l : Listener) (response : NDKRpcResponse)
    (promise : Promise Value) : Promise Value :=
  match l with
  | ConnectListener _ user => connect_listener user response promise
  | SignListener _ => sign_listener response promise
  end.

End RemoteSigner.

(** A fresh [NDKNostrRpc]: no listener, no request, no promise yet. *)
Definition Runtime_new : Runtime :=
  {| rpc_listeners := ∅; rpc_subscriptions := []; rpc_requests := [];
     heap := [] |}.

(** Every registered listener captured a promise object that exists. *)
Definition wf (rt : Runtime) : Prop :=
  map_Forall
    (fun _ ls =>
       Forall (fun l => (listener_promise l < length (heap rt))%nat) ls)
    (rpc_listeners rt).

(** No registered listener captured promise [p]. *)
Definition deregistered (p : nat) (rt : Runtime) : Prop :=
  map_Forall (fun _ ls => Forall (fun l => listener_promise l ≠ p) ls)
    (rpc_listeners rt).

(** Listener [l] is registered for event [name], its promise is pending and
    no other registered listener captured that promise. *)
Definition registered (name : string) (l : Listener) (rt : Runtime) : Prop :=
  heap rt !! listener_promise l = Some Pending
  ∧ (∃ before after,
       rpc_listeners rt !! name = Some (before ++ l :: after)
       ∧ Forall (fun l' => listener_promise l' ≠ listener_promise l)
           (before ++ after))
  ∧ map_Forall
      (fun _ ls =>
         Forall (fun l' => listener_promise l' ≠ listener_promise l) ls)
      (delete name (rpc_listeners rt)).

(** ** An executable fragment of [JSON.parse]

    [JSON.parse] itself is a parameter of the development. To run the
    listeners on concrete payloads, this parser covers a fragment of JSON
    on which it agrees with [JSON.parse]: literals, integers, strings
    without escapes, arrays and objects. Text outside the fragment is not
    used in any example. *)

Definition dquote : ascii := "034"%char.

(** [quoted s] is [s] between double quotes. *)
Definition quoted (s : string) : string :=
  String dquote (String.append s (String dquote EmptyString)).

Definition is_ws (c : ascii) : bool :=
  let n := nat_of_ascii c in
  bool_decide (n = 32 ∨ n = 9 ∨ n = 10 ∨ n = 13)%nat.

Fixpoint skip_ws (s : string) : string :=
  match s with
  | String c r => if is_ws c then skip_ws r else s
  | EmptyString => s
  end.

Fixpoint lex_string (s : string) : option (string * string) :=
  match s with
  | EmptyString => None
  | String c r =>
      if Ascii.eqb c dquote then Some (EmptyString, r)
      else if Ascii.eqb c "\"%char then None
      else if bool_decide (nat_of_ascii c < 32)%nat then None
      else '(body, rest) ← lex_string r; Some (String c body, rest)
  end.

Definition digit (c : ascii) : option Z :=
  let n := nat_of_ascii c in
  if bool_decide (48 ≤ n ≤ 57)%nat then Some (Z.of_nat n - 48) else None.

Fixpoint lex_digits (acc : Z) (s : string) : Z * string :=
  match s with
  | String c r =>
      match digit c with
      | Some d => lex_digits (10 * acc + d) r
      | None => (acc, s)
      end
  | EmptyString => (acc, s)
  end.

(** An integer: a single [0], or a non-zero digit followed by digits. *)
Definition lex_natural (s : string) : option (Z * string) :=
  match s with
  | String c r =>
      match digit c with
      | Some 0 => Some (0, r)
      | Some d => Some (lex_digits d r)
      | None => None
      end
  | EmptyString => None
  end.

Fixpoint parse_items (value : string → option (JSValue * string))
    (n : nat) (s : string) : option (list JSValue * string) :=
  match n with
  | O => None
  | S n =>
      '(v, r) ← value s;
      match skip_ws r with
      | String "," r => '(vs, r) ← parse_items value n r; Some (v :: vs, r)
      | String "]" r => Some ([v], r)
      | _ => None
      end
  end.

Fixpoint parse_members (value : string → option (JSValue * string))
    (n : nat) (s : string) : option (list (string * JSValue) * string) :=
  match n with
  | O => None
  | S n =>
      match skip_ws s with
      | String c r =>
          if Ascii.eqb c dquote then
            '(key, r) ← lex_string r;
            match skip_ws r with
            | String ":" r =>
                '(v, r) ← value r;
                match skip_ws r with
                | String "," r =>
                    '(kvs, r) ← parse_members value n r;
                    Some ((key, v) :: kvs, r)
                | String "}" r => Some ([(key, v)], r)
                | _ => None
                end
            | _ => None
            end
          else None
      | EmptyString => None
      end
  end.

Fixpoint parse_value (fuel : nat) (s : string) : option (JSValue * string) :=
  match fuel with
  | O => None
  | S fuel =>
      match skip_ws s with
      | String "n" (String "u" (String "l" (String "l" r))) => Some (JNull, r)
      | String "t" (String "r" (String "u" (String "e" r))) =>
          Some (JBool true, r)
      | String "f" (String "a" (String "l" (String "s" (String "e" r)))) =>
          Some (JBool false, r)
      | String "[" r =>
          match skip_ws r with
          | String "]" r => Some (JArray [], r)
          | _ => '(vs, r) ← parse_items (parse_value fuel) fuel r;
                 Some (JArray vs, r)
          end
      | String "{" r =>
          match skip_ws r with
          | String "}" r => Some (JObject [], r)
          | _ => '(kvs, r) ← parse_members (parse_value fuel) fuel r;
                 Some (JObject kvs, r)
          end
      | String "-" r => '(z, r) ← lex_natural r; Some (JNumber (- z), r)
      | String c r =>
          if Ascii.eqb c dquote then
            '(str, r) ← lex_string r; Some (JString str, r)
          else '(z, r) ← lex_natural (String c r); Some (JNumber z, r)
      | EmptyString => None
      end
  end.

Definition JSON_parse_fragment (text : string) : option JSValue :=
  '(v, r) ← parse_value (S (String.length text)) text;
  match skip_ws r with
  | EmptyString => Some v
  | _ => None
  end.

(** ** Sample data *)

Definition sample_user : NDKUser :=
  {| user_npub := Some "npub1local"; user_hexpubkey := Some "a0b1c2";
     user_ndk := None |}.

Definition sample_client : NDK :=
  {| this_ref := 1%nat; pool := ["wss://relay.example"]; signer := None;
     devWriteRelaySet := None |}.

Definition sample_signer : NDKNip46Signer :=
  {| nip46_ndk := sample_client; remotePubkey := "f9e8d7";
     localSigner := {| signer_user := Fulfilled sample_user |} |}.

Definition sample_event : NostrEvent :=
  {| created_at := 1700000000; kind := 1; pubkey := "f9e8d7"; tags := [];
     content := "hello"; id := "e1"; sig := EmptyString |}.

(** [{"sig":"a1b2"}] *)
Definition sample_signature_payload : string :=
  String.append "{"
    (String.append (quoted "sig")
       (String.append ":" (String.append (quoted "a1b2") "}"))).

(** A stand-in for [JSON.stringify] in the examples; the client does not
    inspect the request parameters it sends. *)
Definition sample_stringify (event : NostrEvent) : string :=
  quoted (content event).

Definition sample_hexpubkey (u : NDKUser) : string :=
  default EmptyString (user_hexpubkey u).

(** Responses to a request with correlation id ["k3x9"]. *)
Definition response_denied : NDKRpcResponse :=
  {| response_id := "k3x9"; response_result := None;
     response_error := Some "denied" |}.

Definition response_signed : NDKRpcResponse :=
  {| response_id := "k3x9";
     response_result := Some sample_signature_payload;
     response_error := None |}.

Definition response_ack : NDKRpcResponse :=
  {| response_id := "k3x9"; response_result := Some "ack";
     response_error := None |}.

Definition response_unparsable : NDKRpcResponse :=
  {| response_id := "k3x9"; response_result := Some "oops";
     response_error := None |}.

Definition response_garbled : NDKRpcResponse :=
  {| response_id := "k3x9"; response_result := Some "{sig:a1b2";
     response_error := None |}.

Definition response_empty_error : NDKRpcResponse :=
  {| response_id := "k3x9";
     response_result := Some sample_signature_payload;
     response_error := Some EmptyString |}.

(** A response to some other request. *)
Definition response_other : NDKRpcResponse :=
  {| response_id := "q7m2"; response_result := Some "ack";
     response_error := None |}.

(** Two revisions of one replaceable event, as two relays return them, and
    an identity key for the examples: kind and author. *)
Definition sample_tagId (event : NostrEvent) : string :=
  String.append (pubkey event)
    (String.append ":"
       (if (kind event =? 30023)%Z then "article" else id event)).

Definition copy_from_relay_A : NDKEvent :=
  {| rawEvent :=
       {| created_at := 100; kind := 30023; pubkey := "f9e8d7"; tags := [];
          content := "draft"; id := "e-old"; sig := "s-old" |};
     ndk := None |}.

Definition copy_from_relay_B : NDKEvent :=
  {| rawEvent :=
       {| created_at := 200; kind := 30023; pubkey := "f9e8d7"; tags := [];
          content := "final"; id := "e-new"; sig := "s-new" |};
     ndk := None |}.

(** A third copy of the same replaceable event, with relay B's timestamp
    but another content. *)
Definition copy_from_relay_C : NDKEvent :=
  {| rawEvent :=
       {| created_at := 200; kind := 30023; pubkey := "f9e8d7"; tags := [];
          content := "fork"; id := "e-fork"; sig := "s-fork" |};
     ndk := None |}.

(** Construction options with an empty dev-override list. *)
Definition options_empty_dev_relays : NDKConstructorParams :=
  {| explicitRelayUrls := Some ["wss://relay.example"];
     devWriteRelayUrls := Some []; opt_signer := None |}.

(** A remote signer whose local signer fails to yield a user. *)
Definition locked_signer : NDKNip46Signer :=
  {| nip46_ndk := sample_client; remotePubkey := "f9e8d7";
     localSigner := {| signer_user := Rejected (Error "locked") |} |}.

Definition other_event : NostrEvent :=
  {| created_at := 1700000060; kind := 1; pubkey := "f9e8d7"; tags := [];
     content := "goodbye"; id := "e2"; sig := EmptyString |}.

Definition response_refused : NDKRpcResponse :=
  {| response_id := "k3x9"; response_result := Some "nack";
     response_error := None |}.

Definition response_empty_object : NDKRpcResponse :=
  {| response_id := "k3x9"; response_result := Some "{}";
     response_error := None |}.

(** * Properties *)

(** ** The client *)

Lemma resolve_settled {A} (p : Promise A) (v : A) :
  settled p = true → resolve p v = p.
Proof. by destruct p. Qed.

Lemma reject_settled {A} (p : Promise A) (r : JSValue) :
  settled p = true → reject p r = p.
Proof. by destruct p. Qed.

(** C2. For every event and every client configuration, [publish] delivers
    the event to exactly one relay set: the explicit [relaySet] argument
    when there is one, otherwise the configured dev-override set when there
    is one, otherwise the set computed from the event. This holds for any
    client state, and in particular for the client built from any
    construction options. *)
Theorem publish_relaySet_priority
    (calculateRelaySetFromEvent : NDK → NDKEvent → NDKRelaySet)
    (this : NDK) (ref : NDKRef) (opts : NDKConstructorParams)
    (event : NDKEvent) (relaySet : option NDKRelaySet) :
  publish calculateRelaySetFromEvent this event relaySet =
    relaySet_publish
      (default
         (default (calculateRelaySetFromEvent this event)
                  (devWriteRelaySet this))
         relaySet)
      event
  ∧ publish calculateRelaySetFromEvent (NDK_new ref opts) event relaySet =
      relaySet_publish
        (default
           (default (calculateRelaySetFromEvent (NDK_new ref opts) event)
                    (fromRelayUrls <$> devWriteRelayUrls opts))
           relaySet)
        event.
Proof.
  split.
  - unfold publish. destruct relaySet as [explicit|]; [done|].
    by destruct (devWriteRelaySet this).
  - unfold publish, NDK_new; simpl.
    destruct relaySet as [explicit|]; [done|].
    by destruct (devWriteRelayUrls opts).
Qed.

(** C5. Without a signer, [assertSigner] emits [signerRequired] and then
    throws: in the trace of the body the emission comes strictly before the
    throw, and the returned promise is rejected. With a signer, nothing is
    emitted, nothing is thrown and the promise is fulfilled. *)
Theorem assertSigner_emits_before_failing (this : NDK) :
  let body := assertSigner this in
  match signer this with
  | None =>
      ∃ i j : nat,
        index_of (is_emit "signerRequired") body.1 = Some i
        ∧ index_of is_throw body.1 = Some j
        ∧ (i < j)%nat
        ∧ async body = Rejected (Error "Signer required")
  | Some _ =>
      index_of (is_emit "signerRequired") body.1 = None
      ∧ index_of is_throw body.1 = None
      ∧ async body = Fulfilled ()
  end.
Proof.
  unfold assertSigner. destruct (signer this) as [s|]; simpl.
  - done.
  - exists 0%nat, 1%nat. repeat split; lia.
Qed.

(** ** [fetchEvent] *)

Lemma fetchEvent_on_settled (this : NDK) (p : Promise NDKEvent)
    (signals : list Signal) :
  settled p = true → foldl (fetchEvent_on this) p signals = p.
Proof.
  revert p. induction signals as [|s signals IH]; intros p Hp; [done|].
  simpl. destruct s as [event|]; simpl.
  - rewrite resolve_settled by done. by apply IH.
  - by apply IH.
Qed.

Lemma fetchEvent_only_eose (this : NDK) (n : nat) :
  fetchEvent this (replicate n SEose) = Pending.
Proof.
  unfold fetchEvent. induction n as [|n IH]; [done|]. by simpl.
Qed.

Lemma fetchEvent_not_rejected (this : NDK) (signals : list Signal)
    (p : Promise NDKEvent) (reason : JSValue) :
  (∀ r, p ≠ Rejected r) →
  foldl (fetchEvent_on this) p signals ≠ Rejected reason.
Proof.
  revert p. induction signals as [|s signals IH]; intros p Hp; simpl.
  - apply Hp.
  - apply IH. intros r. destruct s as [event|]; simpl; [|apply Hp].
    destruct p; simpl; [done|done|apply Hp].
Qed.

Lemma autoClosing_subscribe (this : NDK) (filter : NDKFilter)
    (opts : gmap string JSValue) (relaySet : option NDKRelaySet) :
  autoClosing
    (subscribe this filter (<["closeOnEose" := JBool true]> opts) relaySet)
  = true.
Proof. unfold autoClosing, subscribe; simpl. by rewrite lookup_insert_eq. Qed.

(** C6. For every filter and options, [fetchEvent] starts an auto-closing
    subscription, and its promise is fulfilled with the first event handed
    to the listener (with the client attached); whatever arrives later,
    other copies included, does not change the result. *)
Theorem fetchEvent_first_arrival (this : NDK) (filter : NDKFilter)
    (opts : gmap string JSValue) (n : nat) (event : NDKEvent)
    (later : list Signal) :
  autoClosing (fetchEvent_subscription this filter opts) = true
  ∧ sub_started (fetchEvent_subscription this filter opts) = true
  ∧ sub_filter (fetchEvent_subscription this filter opts) = filter
  ∧ fetchEvent this (replicate n SEose ++ SEvent event :: later)
    = Fulfilled (set_ndk (this_ref this) event)
  ∧ fetchEvent this (replicate n SEose ++ [SEvent event])
    = fetchEvent this (replicate n SEose ++ SEvent event :: later).
Proof.
  assert (Hrun : ∀ rest,
    fetchEvent this (replicate n SEose ++ SEvent event :: rest)
    = Fulfilled (set_ndk (this_ref this) event)).
  { intros rest. unfold fetchEvent. rewrite foldl_app.
    fold (fetchEvent this (replicate n SEose)).
    rewrite fetchEvent_only_eose. simpl.
    by apply fetchEvent_on_settled. }
  split; [apply autoClosing_subscribe|].
  split; [done|]. split; [done|].
  split; [apply Hrun|]. by rewrite !Hrun.
Qed.

(** C9. If the subscription of [fetchEvent] reaches stream-end without
    having delivered an event, the promise stays pending: it is pending
    after any number of stream-end signals, it is pending for an
    auto-closing subscription whose relays signal stream-end first
    (nothing after the close is delivered), and no stream of signals at all
    rejects it. *)
Theorem fetchEvent_pending_without_event (this : NDK) (filter : NDKFilter)
    (opts : gmap string JSValue) (n : nat) (later : list Signal) :
  fetchEvent this (replicate n SEose) = Pending
  ∧ fetchEvent this
      (delivered (fetchEvent_subscription this filter opts) (SEose :: later))
    = Pending
  ∧ ∀ signals reason, fetchEvent this signals ≠ Rejected reason.
Proof.
  split; [apply fetchEvent_only_eose|]. split.
  - unfold delivered, fetchEvent_subscription.
    by rewrite autoClosing_subscribe.
  - intros signals reason. by apply fetchEvent_not_rejected.
Qed.

(** ** [fetchEvents] *)

Section FetchEvents.

Variable tagIdOf : NostrEvent → string.
Variable tieKeepsExisting : bool.

#[local] Abbreviation tagId := (tagId tagIdOf).
#[local] Abbreviation dedupEvent := (dedupEvent tieKeepsExisting).
#[local] Abbreviation merge_duplicates := (merge_duplicates tagIdOf tieKeepsExisting).
#[local] Abbreviation fetchEvents_on := (fetchEvents_on tagIdOf tieKeepsExisting).
#[local] Abbreviation fetchEvents_run := (fetchEvents_run tagIdOf tieKeepsExisting).
#[local] Abbreviation fetchEvents := (fetchEvents tagIdOf tieKeepsExisting).

Lemma tagId_set_ndk (ref : NDKRef) (event : NDKEvent) :
  tagId (set_ndk ref event) = tagId event.
Proof. done. Qed.

Lemma dedupEvent_cases (a b : NDKEvent) :
  dedupEvent a b = a ∨ dedupEvent a b = b.
Proof. unfold dedupEvent. repeat case_match; auto. Qed.

Lemma dedupEvent_latest (a b : NDKEvent) :
  created_at (rawEvent a) ≤ created_at (rawEvent (dedupEvent a b))
  ∧ created_at (rawEvent b) ≤ created_at (rawEvent (dedupEvent a b)).
Proof.
  unfold dedupEvent.
  destruct (Z.ltb_spec (created_at (rawEvent b)) (created_at (rawEvent a)));
    [lia|].
  destruct (Z.ltb_spec (created_at (rawEvent a)) (created_at (rawEvent b)));
    [lia|].
  destruct tieKeepsExisting; lia.
Qed.

Lemma set_ndk_dedupEvent (ref : NDKRef) (a b : NDKEvent) :
  set_ndk ref (dedupEvent (set_ndk ref a) b) = set_ndk ref (dedupEvent a b).
Proof. unfold dedupEvent; simpl. by repeat case_match. Qed.

Lemma merge_duplicates_snoc (key : string) (observed : list NDKEvent)
    (event : NDKEvent) :
  merge_duplicates key (observed ++ [event]) =
    if bool_decide (tagId event = key) then
      Some (match merge_duplicates key observed with
            | Some kept => dedupEvent kept event
            | None => event
            end)
    else merge_duplicates key observed.
Proof. unfold merge_duplicates. by rewrite foldl_app. Qed.

(** The merged copy is one of the observed copies of that identity, and no
    observed copy of the identity is later than it. *)
Lemma merge_duplicates_Some (key : string) (observed : list NDKEvent)
    (kept : NDKEvent) :
  merge_duplicates key observed = Some kept →
  tagId kept = key ∧ kept ∈ observed
  ∧ ∀ copy, copy ∈ observed → tagId copy = key →
      created_at (rawEvent copy) ≤ created_at (rawEvent kept).
Proof.
  revert kept. induction observed as [|event observed IH] using rev_ind;
    intros kept; [done|].
  rewrite merge_duplicates_snoc. case_bool_decide as Hkey.
  - intros [= <-].
    destruct (merge_duplicates key observed) as [prev|] eqn:Hprev.
    + destruct (IH prev eq_refl) as (Hk & Hin & Hmax).
      pose proof (dedupEvent_latest prev event) as [Hp He].
      split; [by destruct (dedupEvent_cases prev event) as [-> | ->]|].
      split.
      { apply elem_of_app.
        destruct (dedupEvent_cases prev event) as [-> | ->];
          [by left|right; apply list_elem_of_singleton; done]. }
      intros copy [Hc | ->%list_elem_of_singleton]%elem_of_app Hck;
        [|done].
      specialize (Hmax copy Hc Hck). lia.
    + split; [done|].
      split; [apply elem_of_app; right; by apply list_elem_of_singleton|].
      intros copy [Hc | ->%list_elem_of_singleton]%elem_of_app Hck;
        [|done].
      exfalso. clear IH. revert Hprev.
      induction observed as [|x observed IH'] using rev_ind;
        [by apply not_elem_of_nil in Hc|].
      rewrite merge_duplicates_snoc. case_bool_decide as Hx; [done|].
      apply elem_of_app in Hc as [Hc | ->%list_elem_of_singleton];
        [by apply IH'|done].
  - intros Hm. destruct (IH kept Hm) as (Hk & Hin & Hmax).
    split; [done|]. split; [apply elem_of_app; by left|].
    intros copy [Hc | ->%list_elem_of_singleton]%elem_of_app Hck;
      [by apply Hmax|done].
Qed.

Lemma merge_duplicates_is_Some (key : string) (observed : list NDKEvent) :
  is_Some (merge_duplicates key observed) ↔ key ∈ tagId <$> observed.
Proof.
  induction observed as [|event observed IH] using rev_ind.
  - split; [by intros [? ?]|by intros ?%not_elem_of_nil].
  - rewrite merge_duplicates_snoc, fmap_app, elem_of_app.
    case_bool_decide as Hkey.
    + split; [|by eauto]. intros _. right. subst key.
      by apply list_elem_of_singleton.
    + rewrite IH. split; [by left|]. intros [?|H]; [done|].
      simpl in H. apply list_elem_of_singleton in H. done.
Qed.

Section Run.

Variable this : NDK.

Lemma fetchEvents_run_snoc (signals : list Signal) (signal : Signal) :
  fetchEvents_run this (signals ++ [signal]) =
    fetchEvents_on this (fetchEvents_run this signals) signal.
Proof. unfold fetchEvents_run. by rewrite foldl_app. Qed.

(** While only events arrive, nothing is resolved and the map holds, for
    every identity, the merge of the copies observed so far. *)
Lemma fetchEvents_accumulates (observed : list NDKEvent) :
  fetched (fetchEvents_run this (SEvent <$> observed)) = Pending
  ∧ ∀ key,
      events (fetchEvents_run this (SEvent <$> observed)) !! key =
        set_ndk (this_ref this) <$> merge_duplicates key observed.
Proof.
  induction observed as [|event observed [IHp IHm]] using rev_ind;
    [done|].
  rewrite fmap_app; simpl. rewrite fetchEvents_run_snoc; simpl.
  split; [done|]. intros key.
  rewrite merge_duplicates_snoc, (IHm (tagId event)).
  destruct (merge_duplicates (tagId event) observed) as [prev|] eqn:Hprev;
    simpl.
  - pose proof Hprev as (Hk & _ & _)%merge_duplicates_Some.
    rewrite set_ndk_dedupEvent.
    assert (Hid : tagId (set_ndk (this_ref this) (dedupEvent prev event))
                  = tagId event).
    { rewrite tagId_set_ndk.
      by destruct (dedupEvent_cases prev event) as [-> | ->]. }
    rewrite Hid. case_bool_decide as Hkey.
    + subst key. rewrite lookup_insert_eq. by rewrite Hprev.
    + rewrite lookup_insert_ne by done. apply IHm.
  - rewrite tagId_set_ndk. case_bool_decide as Hkey.
    + subst key. rewrite lookup_insert_eq. by rewrite Hprev.
    + rewrite lookup_insert_ne by done. apply IHm.
Qed.

Lemma fetched_settled (st : FetchEvents) (signals : list Signal) :
  settled (fetched st) = true →
  fetched (foldl (fetchEvents_on this) st signals) = fetched st.
Proof.
  revert st. induction signals as [|s signals IH]; intros st Hst; [done|].
  simpl. rewrite IH; destruct s; simpl; try done.
  all: by rewrite resolve_settled.
Qed.

End Run.

End FetchEvents.

Lemma elem_of_values (m : gmap string NDKEvent) (entry : NDKEvent) :
  entry ∈ values m ↔ ∃ key, m !! key = Some entry.
Proof.
  unfold values. rewrite list_elem_of_fmap. split.
  - intros ([key v] & -> & Hin). exists key. by apply elem_of_map_to_list.
  - intros (key & Hkey). exists (key, entry). split; [done|].
    by apply elem_of_map_to_list.
Qed.

Lemma values_keys (tagIdOf : NostrEvent → string)
    (m : gmap string NDKEvent) :
  (∀ key entry, m !! key = Some entry → tagId tagIdOf entry = key) →
  tagId tagIdOf <$> values m = (map_to_list m).*1.
Proof.
  intros Hkeys. unfold values. rewrite <- list_fmap_compose.
  apply Forall_fmap_ext, Forall_forall. intros [key entry] Hin; simpl.
  apply Hkeys. by apply elem_of_map_to_list.
Qed.

(** C1. For every filter and options, [fetchEvents] starts an auto-closing
    subscription. While only events arrive the promise stays pending. At
    the first stream-end it is fulfilled with a collection that has exactly
    one entry per observed identity key; each entry is the dedup merge, in
    arrival order, of all copies observed for its identity (with the client
    attached), and no observed copy of that identity has a later timestamp.
    Whatever arrives after stream-end does not change the result. *)
Theorem fetchEvents_one_entry_per_identity
    (tagIdOf : NostrEvent → string) (tieKeepsExisting : bool)
    (this : NDK) (filter : NDKFilter) (opts : gmap string JSValue)
    (observed : list NDKEvent) (later : list Signal) :
  let sub := fetchEvents_subscription this filter opts in
  autoClosing sub = true ∧ sub_started sub = true ∧ sub_filter sub = filter
  ∧ fetchEvents tagIdOf tieKeepsExisting this (SEvent <$> observed) = Pending
  ∧ ∃ result,
      fetchEvents tagIdOf tieKeepsExisting this
        ((SEvent <$> observed) ++ SEose :: later) = Fulfilled result
      ∧ NoDup (tagId tagIdOf <$> result)
      ∧ (∀ key, key ∈ tagId tagIdOf <$> result
                ↔ key ∈ tagId tagIdOf <$> observed)
      ∧ ∀ entry, entry ∈ result →
          Some entry =
            set_ndk (this_ref this) <$>
              merge_duplicates tagIdOf tieKeepsExisting
                (tagId tagIdOf entry) observed
          ∧ ∀ copy, copy ∈ observed →
              tagId tagIdOf copy = tagId tagIdOf entry →
              created_at (rawEvent copy) ≤ created_at (rawEvent entry).
Proof.
  intros sub.
  destruct (fetchEvents_accumulates tagIdOf tieKeepsExisting this observed)
    as [Hpending Hmap].
  set (m := events (fetchEvents_run tagIdOf tieKeepsExisting this
                      (SEvent <$> observed))) in *.
  assert (Hkeys : ∀ key entry, m !! key = Some entry →
                    tagId tagIdOf entry = key).
  { intros key entry. rewrite Hmap.
    destruct (merge_duplicates _ _ key observed) as [kept|] eqn:Hkept;
      [|done].
    intros [= <-]. rewrite tagId_set_ndk.
    by apply merge_duplicates_Some in Hkept as (? & _ & _). }
  split; [apply autoClosing_subscribe|].
  split; [done|]. split; [done|]. split; [done|].
  exists (values m). split.
  { unfold fetchEvents, fetchEvents_run. rewrite foldl_app; simpl.
    rewrite fetched_settled; simpl.
    - fold (fetchEvents_run tagIdOf tieKeepsExisting this
              (SEvent <$> observed)).
      by rewrite Hpending.
    - fold (fetchEvents_run tagIdOf tieKeepsExisting this
              (SEvent <$> observed)).
      by rewrite Hpending. }
  split.
  { rewrite (values_keys _ _ Hkeys). apply NoDup_fst_map_to_list. }
  split.
  { intros key. rewrite (values_keys _ _ Hkeys).
    rewrite <- merge_duplicates_is_Some with (tieKeepsExisting := tieKeepsExisting).
    rewrite list_elem_of_fmap. split.
    - intros ([k v] & -> & Hin%elem_of_map_to_list); simpl.
      rewrite Hmap in Hin.
      destruct (merge_duplicates _ _ k observed); [by eauto|done].
    - intros [kept Hkept]. exists (key, set_ndk (this_ref this) kept).
      split; [done|]. apply elem_of_map_to_list. by rewrite Hmap, Hkept. }
  intros entry [key Hentry]%elem_of_values.
  pose proof (Hkeys _ _ Hentry) as <-.
  rewrite Hmap in Hentry. split; [done|].
  destruct (merge_duplicates _ _ (tagId tagIdOf entry) observed)
    as [kept|] eqn:Hkept; [|done].
  injection Hentry as <-.
  apply merge_duplicates_Some in Hkept as (_ & _ & Hmax).
  intros copy Hcopy Hid. by apply Hmax.
Qed.

(** ** The remote signer *)

Lemma response_event_inj (a b : string) :
  response_event a = response_event b → a = b.
Proof. unfold response_event; simpl. by intros [=]. Qed.

Section Handles.

Variable JSON_parse : string → option JSValue.

#[local] Abbreviation run_listener := (run_listener JSON_parse).
#[local] Abbreviation listener_apply := (listener_apply JSON_parse).
#[local] Abbreviation receive := (receive JSON_parse).
#[local] Abbreviation receive_all := (receive_all JSON_parse).

Lemma run_listener_other (response : NDKRpcResponse)
    (h : list (Promise Value)) (l : Listener) (p : nat) :
  listener_promise l ≠ p → run_listener response h l !! p = h !! p.
Proof. destruct l; simpl; intros Hp; by apply list_lookup_alter_ne. Qed.

Lemma run_listeners_other (response : NDKRpcResponse) (ls : list Listener)
    (h : list (Promise Value)) (p : nat) :
  Forall (fun l => listener_promise l ≠ p) ls →
  foldl (run_listener response) h ls !! p = h !! p.
Proof.
  revert h. induction ls as [|l ls IH]; intros h Hls; [done|].
  inversion_clear Hls as [|? ? Hl Hrest]. simpl.
  rewrite IH by done. by apply run_listener_other.
Qed.

Lemma run_listener_own (response : NDKRpcResponse)
    (h : list (Promise Value)) (l : Listener) :
  run_listener response h l !! listener_promise l =
    listener_apply l response <$> h !! listener_promise l.
Proof. destruct l; simpl; apply list_lookup_alter_eq. Qed.

(** A response for another correlation id leaves a registered handle as it
    is: registered and pending. *)
Lemma receive_other (name : string) (l : Listener) (rt : Runtime)
    (response : NDKRpcResponse) :
  response_event (response_id response) ≠ name →
  registered name l rt → registered name l (receive rt response).
Proof.
  intros Hname (Hheap & (before & after & Hls & Hothers) & Hrest).
  assert (Hfired :
    Forall (fun l' => listener_promise l' ≠ listener_promise l)
      (default []
         (rpc_listeners rt !! response_event (response_id response)))).
  { destruct (rpc_listeners rt !! response_event (response_id response))
      as [fired|] eqn:Hfired; simpl; [|done].
    apply (Hrest (response_event (response_id response))).
    by rewrite lookup_delete_ne. }
  split; [|split].
  - unfold receive, rpc_emit; simpl.
    by rewrite run_listeners_other.
  - exists before, after. split; [|done].
    unfold receive, rpc_emit; simpl. by rewrite lookup_delete_ne.
  - unfold receive, rpc_emit; simpl.
    rewrite delete_delete. by apply map_Forall_delete.
Qed.

(** The response with the listener's correlation id fires the listener on
    its pending promise and deregisters it. *)
Lemma receive_match (name : string) (l : Listener) (rt : Runtime)
    (response : NDKRpcResponse) :
  response_event (response_id response) = name →
  registered name l rt →
  heap (receive rt response) !! listener_promise l =
    Some (listener_apply l response Pending)
  ∧ deregistered (listener_promise l) (receive rt response).
Proof.
  intros Hname (Hheap & (before & after & Hls & Hothers) & Hrest).
  apply Forall_app in Hothers as [Hbefore Hafter].
  split.
  - unfold receive, rpc_emit; simpl. rewrite Hname, Hls; simpl.
    rewrite foldl_app; simpl.
    rewrite run_listeners_other by done.
    rewrite run_listener_own, run_listeners_other by done.
    by rewrite Hheap.
  - unfold deregistered, receive, rpc_emit; simpl. by rewrite Hname.
Qed.

(** Once deregistered, a promise is out of reach of every response. *)
Lemma receive_deregistered (p : nat) (rt : Runtime)
    (response : NDKRpcResponse) :
  deregistered p rt →
  deregistered p (receive rt response)
  ∧ heap (receive rt response) !! p = heap rt !! p.
Proof.
  intros Hp. split.
  - unfold deregistered, receive, rpc_emit; simpl.
    by apply map_Forall_delete.
  - unfold receive, rpc_emit; simpl. apply run_listeners_other.
    destruct (rpc_listeners rt !! response_event (response_id response))
      as [fired|] eqn:Hfired; simpl; [|done].
    by apply (Hp _ _ Hfired).
Qed.

Lemma receive_all_deregistered (p : nat) (responses : list NDKRpcResponse)
    (rt : Runtime) :
  deregistered p rt →
  deregistered p (receive_all rt responses)
  ∧ heap (receive_all rt responses) !! p = heap rt !! p.
Proof.
  revert rt. induction responses as [|r responses IH]; intros rt Hp;
    [done|].
  destruct (receive_deregistered p rt r Hp) as [Hp' Hheap].
  unfold receive_all; simpl. fold (receive_all (receive rt r) responses).
  destruct (IH _ Hp') as [? ->]. by split.
Qed.

Lemma receive_all_other (id : string) (l : Listener)
    (responses : list NDKRpcResponse) (rt : Runtime) :
  Forall (fun r => response_id r ≠ id) responses →
  registered (response_event id) l rt →
  registered (response_event id) l (receive_all rt responses).
Proof.
  revert rt. induction responses as [|r responses IH]; intros rt Hrs Hreg;
    [done|].
  inversion_clear Hrs as [|? ? Hr Hrest].
  unfold receive_all; simpl. fold (receive_all (receive rt r) responses).
  apply IH; [done|]. apply receive_other; [|done].
  by intros ?%response_event_inj.
Qed.

(** The life of a handle: responses for other ids change nothing, the
    first response with its id decides, whatever follows is ignored. *)
Lemma handle_settled_by_first_match (id : string) (l : Listener)
    (rt : Runtime) (earlier : list NDKRpcResponse)
    (response : NDKRpcResponse) (later : list NDKRpcResponse) :
  registered (response_event id) l rt →
  Forall (fun r => response_id r ≠ id) earlier →
  response_id response = id →
  heap (receive_all rt (earlier ++ response :: later)) !! listener_promise l
    = Some (listener_apply l response Pending)
  ∧ deregistered (listener_promise l)
      (receive_all rt (earlier ++ response :: later)).
Proof.
  intros Hreg Hearlier Hid.
  pose proof (receive_all_other id l earlier rt Hearlier Hreg) as Hreg'.
  assert (Hev : response_event (response_id response) = response_event id)
    by (by rewrite Hid).
  destruct (receive_match _ l _ response Hev Hreg') as [Hheap Hdereg].
  destruct (receive_all_deregistered _ later _ Hdereg) as [Hd Hh].
  unfold receive_all in *. rewrite foldl_app; simpl.
  split; [by rewrite Hh|done].
Qed.

End Handles.

Lemma wf_Runtime_new : wf Runtime_new.
Proof. unfold wf, Runtime_new; simpl. apply map_Forall_empty. Qed.

(** Registering a listener on a freshly created promise. *)
Lemma once_fresh_registered (name : string) (l : Listener) (rt : Runtime) :
  wf rt →
  listener_promise l = length (heap rt) →
  registered name l (once name l (new_promise rt).2).
Proof.
  intros Hwf Hl.
  assert (Hfresh : ∀ name' ls, rpc_listeners rt !! name' = Some ls →
            Forall (fun l' => listener_promise l' ≠ listener_promise l) ls).
  { intros name' ls Hls. specialize (Hwf name' ls Hls). simpl in Hwf.
    eapply Forall_impl; [exact Hwf|]. intros l' Hl'; simpl in Hl'. lia. }
  split; [|split].
  - simpl. rewrite Hl. by rewrite lookup_app_r, Nat.sub_diag by lia.
  - exists (default [] (rpc_listeners rt !! name)), []. split.
    + simpl. by rewrite lookup_insert_eq.
    + rewrite app_nil_r.
      destruct (rpc_listeners rt !! name) as [ls|] eqn:Hls; simpl; [|done].
      by apply (Hfresh name).
  - simpl. rewrite delete_insert_eq. apply map_Forall_delete.
    intros name' ls Hls. by apply (Hfresh name').
Qed.

Lemma wf_once_fresh (name : string) (l : Listener) (rt : Runtime) :
  wf rt →
  listener_promise l = length (heap rt) →
  wf (once name l (new_promise rt).2).
Proof.
  intros Hwf Hl. unfold wf; simpl. rewrite length_app; simpl.
  apply map_Forall_insert_2.
  - apply Forall_app. split.
    + destruct (rpc_listeners rt !! name) as [ls|] eqn:Hls; simpl; [|done].
      specialize (Hwf name ls Hls). simpl in Hwf.
      eapply Forall_impl; [exact Hwf|]. intros l' Hl'; simpl in Hl'. lia.
    + apply Forall_singleton. lia.
  - intros name' ls Hls. specialize (Hwf name' ls Hls). simpl in Hwf.
    eapply Forall_impl; [exact Hwf|]. intros l' Hl'; simpl in Hl'. lia.
Qed.

Section Calls.

Variable JSON_parse : string → option JSValue.
Variable JSON_stringify : NostrEvent → string.
Variable hexpubkey_of : NDKUser → string.

#[local] Abbreviation receive := (receive JSON_parse).
#[local] Abbreviation sign := (sign JSON_stringify).
#[local] Abbreviation blockUntilReady := (blockUntilReady hexpubkey_of).

Lemma wf_receive (rt : Runtime) (response : NDKRpcResponse) :
  wf rt → wf (receive rt response).
Proof.
  intros Hwf. unfold wf, receive, rpc_emit; simpl.
  apply map_Forall_delete.
  assert (Hlen : ∀ ls h,
    length (foldl (run_listener JSON_parse response) h ls) = length h).
  { induction ls as [|l ls IH]; intros h; [done|]. simpl. rewrite IH.
    destruct l; simpl; apply length_alter. }
  intros name ls Hls. rewrite Hlen. by apply (Hwf name).
Qed.

Lemma sign_registered (this : NDKNip46Signer) (event : NostrEvent)
    (connectId : string) (rt : Runtime) :
  wf rt →
  (sign this event connectId rt).1 = Later (length (heap rt))
  ∧ registered (response_event connectId) (SignListener (length (heap rt)))
      (sign this event connectId rt).2
  ∧ wf (sign this event connectId rt).2.
Proof.
  intros Hwf. split; [done|]. split.
  - by apply (once_fresh_registered _ (SignListener (length (heap rt)))).
  - by apply (wf_once_fresh (response_event connectId)
                (SignListener (length (heap rt)))).
Qed.

Lemma blockUntilReady_registered (this : NDKNip46Signer)
    (connectId : string) (rt : Runtime) (localUser : NDKUser) :
  wf rt →
  signer_user (localSigner this) = Fulfilled localUser →
  let user :=
    getUser (nip46_ndk this)
      {| npub := user_npub localUser; hexpubkey := None |} in
  (blockUntilReady this connectId rt).1 = Later (length (heap rt))
  ∧ registered (response_event connectId)
      (ConnectListener (length (heap rt)) user)
      (blockUntilReady this connectId rt).2
  ∧ wf (blockUntilReady this connectId rt).2.
Proof.
  intros Hwf Huser user. unfold blockUntilReady. rewrite Huser.
  set (filter := {| kinds := [24133]; authors := []; ids := [];
                    p_tags := [hexpubkey_of localUser]; limit := None |}).
  split; [done|]. split.
  - by apply (once_fresh_registered _
                (ConnectListener (length (heap rt)) user)
                (rpc_subscribe filter rt)).
  - by apply (wf_once_fresh (response_event connectId)
                (ConnectListener (length (heap rt)) user)
                (rpc_subscribe filter rt)).
Qed.

End Calls.

Lemma outcome_Later {R} (v : R) (handle : nat) (rt : Runtime)
    (p : Promise Value) :
  heap rt !! handle = Some p → outcome (Fulfilled v) (Later handle) rt = p.
Proof. intros Hp. unfold outcome. by rewrite Hp. Qed.

(** C3, amended. A [sign] call whose request went out is settled by the
    first response with its correlation id. If that response carries a
    non-empty [error], the call rejects with that error, whatever follows,
    and so never resolves with a signature (also when the awaited
    [sendRequest] itself rejects with that error). If it carries no error
    (absent or empty) and its [result] parses as JSON to a value with a
    readable [sig] property, the call resolves with that property. If the
    [result] does not parse, or parses to [null], the call stays pending. *)
Theorem sign_settled_by_first_response
    (JSON_parse : string → option JSValue)
    (JSON_stringify : NostrEvent → string)
    (this : NDKNip46Signer) (event : NostrEvent) (connectId : string)
    (rt : Runtime) (earlier : list NDKRpcResponse)
    (response : NDKRpcResponse) (later : list NDKRpcResponse)
    (R : Type) (sent : Promise R) :
  wf rt →
  Forall (fun r => response_id r ≠ connectId) earlier →
  response_id response = connectId →
  let call := sign JSON_stringify this event connectId rt in
  let rt' := receive_all JSON_parse call.2 (earlier ++ response :: later) in
  (∀ error,
     response_error response = Some error → error ≠ EmptyString →
     (∃ v, sent = Fulfilled v) ∨ sent = Rejected (JString error) →
     outcome sent call.1 rt' = Rejected (JString error))
  ∧ (∀ v json signature,
       sent = Fulfilled v →
       truthy (response_error response) = false →
       response_result response ≫= JSON_parse = Some json →
       js_member json "sig" = Some signature →
       outcome sent call.1 rt' = Fulfilled (VJS signature))
  ∧ (∀ v,
       sent = Fulfilled v →
       truthy (response_error response) = false →
       (response_result response ≫= JSON_parse)
         ≫= (fun json => js_member json "sig") = None →
       outcome sent call.1 rt' = Pending).
Proof.
  intros Hwf Hearlier Hid call rt'.
  destruct (sign_registered JSON_stringify this event connectId rt Hwf)
    as (Hcall & Hreg & _).
  destruct (handle_settled_by_first_match JSON_parse connectId _ _
              earlier response later Hreg Hearlier Hid) as [Hheap _].
  fold call in Hcall. fold rt' in Hheap. simpl in Hheap.
  rewrite Hcall. unfold sign_listener in Hheap.
  split; [|split].
  - intros error Herr Hne [[v ->] | ->]; [|done].
    rewrite (outcome_Later _ _ _ _ Hheap), Herr; simpl.
    destruct error; [done|]. done.
  - intros v json signature -> Hfalsy Hjson Hsig.
    rewrite (outcome_Later _ _ _ _ Hheap), Hfalsy, Hjson, Hsig. done.
  - intros v -> Hfalsy Hnone.
    rewrite (outcome_Later _ _ _ _ Hheap), Hfalsy; simpl.
    destruct (response_result response ≫= JSON_parse) as [json|]; [|done].
    simpl in Hnone. by rewrite Hnone.
Qed.

(** C4. When the first response to the connect request has [result]
    equal to ["ack"], [blockUntilReady] resolves with the user built from
    the local signer's [npub] and bound to the client. The remote public
    key plays no part: any other remote key gives the same user. *)
Theorem blockUntilReady_ack_resolves_local_user
    (JSON_parse : string → option JSValue)
    (hexpubkey_of : NDKUser → string)
    (this : NDKNip46Signer) (connectId : string) (rt : Runtime)
    (localUser : NDKUser) (earlier : list NDKRpcResponse)
    (response : NDKRpcResponse) (later : list NDKRpcResponse)
    (R : Type) (v : R) (otherRemote : string) :
  wf rt →
  signer_user (localSigner this) = Fulfilled localUser →
  Forall (fun r => response_id r ≠ connectId) earlier →
  response_id response = connectId →
  response_result response = Some "ack" →
  let run (s : NDKNip46Signer) :=
    let call := blockUntilReady hexpubkey_of s connectId rt in
    outcome (Fulfilled v) call.1
      (receive_all JSON_parse call.2 (earlier ++ response :: later)) in
  let user :=
    getUser (nip46_ndk this)
      {| npub := user_npub localUser; hexpubkey := None |} in
  run this = Fulfilled (VUser user)
  ∧ user_npub user = user_npub localUser
  ∧ user_ndk user = Some (this_ref (nip46_ndk this))
  ∧ run {| nip46_ndk := nip46_ndk this; remotePubkey := otherRemote;
           localSigner := localSigner this |} = run this.
Proof.
  intros Hwf Huser Hearlier Hid Hack run user.
  assert (Hrun : ∀ s, nip46_ndk s = nip46_ndk this →
                      localSigner s = localSigner this →
                      run s = Fulfilled (VUser user)).
  { intros s Hndk Hlocal. unfold run.
    assert (Huser' : signer_user (localSigner s) = Fulfilled localUser)
      by (by rewrite Hlocal).
    destruct (blockUntilReady_registered hexpubkey_of s connectId rt
                localUser Hwf Huser') as (Hcall & Hreg & _).
    destruct (handle_settled_by_first_match JSON_parse connectId _ _
                earlier response later Hreg Hearlier Hid) as [Hheap _].
    rewrite Hcall. simpl in Hheap.
    rewrite (outcome_Later _ _ _ _ Hheap).
    unfold connect_listener. rewrite Hack, Hndk.
    by rewrite bool_decide_eq_true_2. }
  split; [by apply Hrun|]. split; [done|]. split; [done|].
  by rewrite !Hrun.
Qed.

(** C7, amended. The completion handle of a [sign] or [blockUntilReady]
    call is settled at most once. Responses with another correlation id
    leave it pending. The first response with its correlation id fires the
    listener and deregisters it, so the state of the handle is what that
    listener made of that response, whatever responses follow, with the
    same id or not. For [connect] the listener always resolves or rejects;
    for [sign_event] it resolves or rejects exactly when the response has a
    non-empty error or a result that parses to a value with a readable
    [sig] property, and otherwise the handle stays pending for good. *)
Theorem rpc_handle_settled_at_most_once
    (JSON_parse : string → option JSValue)
    (JSON_stringify : NostrEvent → string)
    (hexpubkey_of : NDKUser → string)
    (this : NDKNip46Signer) (event : NostrEvent) (connectId : string)
    (rt : Runtime) (localUser : NDKUser) :
  wf rt →
  signer_user (localSigner this) = Fulfilled localUser →
  let handle := length (heap rt) in
  let user :=
    getUser (nip46_ndk this)
      {| npub := user_npub localUser; hexpubkey := None |} in
  let life (started : Runtime) (l : Listener) :=
    (∀ responses,
       Forall (fun r => response_id r ≠ connectId) responses →
       heap (receive_all JSON_parse started responses) !! handle
       = Some Pending)
    ∧ (∀ earlier response later,
         Forall (fun r => response_id r ≠ connectId) earlier →
         response_id response = connectId →
         heap (receive_all JSON_parse started
                 (earlier ++ response :: later)) !! handle
         = Some (listener_apply JSON_parse l response Pending)
         ∧ deregistered handle
             (receive_all JSON_parse started (earlier ++ [response]))) in
  life (sign JSON_stringify this event connectId rt).2 (SignListener handle)
  ∧ life (blockUntilReady hexpubkey_of this connectId rt).2
      (ConnectListener handle user)
  ∧ (∀ response,
       settled (connect_listener user response Pending) = true)
  ∧ (∀ response,
       settled (sign_listener JSON_parse response Pending) = true
       ↔ truthy (response_error response) = true
         ∨ is_Some ((response_result response ≫= JSON_parse)
                      ≫= (fun json => js_member json "sig"))).
Proof.
  intros Hwf Huser handle user life.
  assert (Hlife : ∀ started l,
            listener_promise l = handle →
            registered (response_event connectId) l started →
            life started l).
  { intros started l Hl Hreg. split.
    - intros responses Hrs.
      destruct (receive_all_other JSON_parse connectId l responses started
                  Hrs Hreg) as [Hheap _].
      by rewrite Hl in Hheap.
    - intros earlier response later Hearlier Hid.
      destruct (handle_settled_by_first_match JSON_parse connectId l started
                  earlier response later Hreg Hearlier Hid) as [Hheap _].
      destruct (handle_settled_by_first_match JSON_parse connectId l started
                  earlier response [] Hreg Hearlier Hid) as [_ Hdereg].
      rewrite Hl in Hheap, Hdereg. by split. }
  split; [|split; [|split]].
  - apply Hlife; [done|].
    by apply (sign_registered JSON_stringify this event connectId rt).
  - apply Hlife; [done|].
    by apply (blockUntilReady_registered hexpubkey_of this connectId rt
                localUser).
  - intros response. unfold connect_listener. by case_bool_decide.
  - intros response. unfold sign_listener.
    destruct (truthy (response_error response)); simpl.
    + split; [by left|done].
    + destruct (response_result response ≫= JSON_parse) as [json|]; simpl.
      * destruct (js_member json "sig") as [signature|]; simpl.
        -- split; [by right|done].
        -- split; [done|]. by intros [?|[? ?]].
      * split; [done|]. by intros [?|[? ?]].
Qed.

(** C8. For every recipient and every text, [encrypt] and [decrypt] return
    a promise rejected with the not-implemented error and leave the RPC
    layer untouched: no request is sent, no listener is registered, no
    subscription is opened. *)
Theorem encrypt_decrypt_not_implemented
    (this : NDKNip46Signer) (peer : NDKUser) (value : string)
    (rt : Runtime) :
  encrypt this peer value rt = (Rejected (Error "not implemented"), rt)
  ∧ decrypt this peer value rt = (Rejected (Error "not implemented"), rt)
  ∧ rpc_requests (encrypt this peer value rt).2 = rpc_requests rt
  ∧ rpc_requests (decrypt this peer value rt).2 = rpc_requests rt.
Proof. done. Qed.

(** C10. [user()] of the remote signer is [user()] of its local signer:
    the signer passed to the constructor, or the freshly generated
    private-key signer when none is passed. The remote public key plays no
    part in it. *)
Theorem nip46_user_is_local_signer_user
    (generated : NDKSigner) (ndk : NDK) (remote otherRemote : string)
    (given : NDKSigner) (supplied : option NDKSigner) :
  user (NDKNip46Signer_new generated ndk remote (Some given))
  = signer_user given
  ∧ localSigner (NDKNip46Signer_new generated ndk remote None) = generated
  ∧ user (NDKNip46Signer_new generated ndk remote None)
    = signer_user generated
  ∧ remotePubkey (NDKNip46Signer_new generated ndk remote supplied) = remote
  ∧ user (NDKNip46Signer_new generated ndk otherRemote supplied)
    = user (NDKNip46Signer_new generated ndk remote supplied).
Proof. by destruct supplied. Qed.

(** ** Runs on sample data *)

Lemma sign_settled_by_first_response_witness :
  wf Runtime_new
  ∧ Forall (fun r => response_id r ≠ "k3x9") [response_other]
  ∧ response_id response_denied = "k3x9"
  ∧ (let call :=
       sign sample_stringify sample_signer sample_event "k3x9" Runtime_new in
     outcome (Fulfilled ()) call.1
       (receive_all JSON_parse_fragment call.2
          ([response_other] ++ response_denied :: [response_signed]))
     = Rejected (JString "denied")).
Proof.
  assert (Hother : Forall (fun r => response_id r ≠ "k3x9") [response_other])
    by (apply Forall_singleton; discriminate).
  split; [exact wf_Runtime_new|]. split; [exact Hother|].
  split; [reflexivity|].
  refine (proj1 (sign_settled_by_first_response JSON_parse_fragment
                   sample_stringify sample_signer sample_event "k3x9"
                   Runtime_new [response_other] response_denied
                   [response_signed] unit (Fulfilled ())
                   wf_Runtime_new Hother eq_refl) "denied" eq_refl _ _).
  - discriminate.
  - left. by exists ().
Defined.

(** C3, counterexample. A first response without error whose result is not
    JSON leaves the [sign] call pending: it does not resolve with a
    signature. And a first response that carries an empty [error] next to a
    signed result resolves the call with the signature instead of
    rejecting it. *)
Lemma sign_first_response_counterexample :
  let call :=
    sign sample_stringify sample_signer sample_event "k3x9" Runtime_new in
  (response_error response_unparsable = None
   ∧ outcome (Fulfilled ()) call.1
       (receive_all JSON_parse_fragment call.2 [response_unparsable])
     = Pending)
  ∧ (response_error response_empty_error = Some EmptyString
     ∧ outcome (Fulfilled ()) call.1
         (receive_all JSON_parse_fragment call.2 [response_empty_error])
       = Fulfilled (VJS (JString "a1b2"))).
Proof. vm_compute. repeat split. Qed.

Lemma blockUntilReady_ack_resolves_local_user_witness :
  wf Runtime_new
  ∧ signer_user (localSigner sample_signer) = Fulfilled sample_user
  ∧ Forall (fun r => response_id r ≠ "k3x9") [response_other]
  ∧ response_id response_ack = "k3x9"
  ∧ response_result response_ack = Some "ack"
  ∧ (let call :=
       blockUntilReady sample_hexpubkey sample_signer "k3x9" Runtime_new in
     outcome (Fulfilled ()) call.1
       (receive_all JSON_parse_fragment call.2
          ([response_other] ++ response_ack :: [response_denied]))
     = Fulfilled
         (VUser {| user_npub := Some "npub1local"; user_hexpubkey := None;
                   user_ndk := Some 1%nat |})).
Proof.
  assert (Hother : Forall (fun r => response_id r ≠ "k3x9") [response_other])
    by (apply Forall_singleton; discriminate).
  split; [exact wf_Runtime_new|]. split; [reflexivity|].
  split; [exact Hother|]. split; [reflexivity|]. split; [reflexivity|].
  exact (proj1 (blockUntilReady_ack_resolves_local_user JSON_parse_fragment
                  sample_hexpubkey sample_signer "k3x9" Runtime_new
                  sample_user [response_other] response_ack
                  [response_denied] unit () "0000"
                  wf_Runtime_new eq_refl Hother eq_refl eq_refl)).
Defined.

Lemma rpc_handle_settled_at_most_once_witness :
  wf Runtime_new
  ∧ signer_user (localSigner sample_signer) = Fulfilled sample_user
  ∧ heap (receive_all JSON_parse_fragment
            (sign sample_stringify sample_signer sample_event "k3x9"
               Runtime_new).2
            ([response_other] ++ response_signed :: [response_denied]))
      !! 0%nat
    = Some (Fulfilled (VJS (JString "a1b2"))).
Proof.
  assert (Hother : Forall (fun r => response_id r ≠ "k3x9") [response_other])
    by (apply Forall_singleton; discriminate).
  split; [exact wf_Runtime_new|]. split; [reflexivity|].
  exact (proj1 (proj2 (proj1
           (rpc_handle_settled_at_most_once JSON_parse_fragment
              sample_stringify sample_hexpubkey sample_signer sample_event
              "k3x9" Runtime_new sample_user wf_Runtime_new eq_refl))
           [response_other] response_signed [response_denied]
           Hother eq_refl)).
Defined.

(** C7, counterexample. The first response with the correlation id of a
    [sign] call, whose result is not JSON, deregisters the listener without
    resolving or rejecting the handle; the well-formed response that
    follows with the same id is ignored, and the handle is still pending. *)
Lemma rpc_handle_first_response_counterexample :
  let started :=
    (sign sample_stringify sample_signer sample_event "k3x9" Runtime_new).2 in
  response_id response_garbled = "k3x9"
  ∧ heap (receive_all JSON_parse_fragment started [response_garbled])
      !! 0%nat = Some Pending
  ∧ rpc_listeners (receive_all JSON_parse_fragment started [response_garbled])
      !! response_event "k3x9" = None
  ∧ heap (receive_all JSON_parse_fragment started
            [response_garbled; response_signed]) !! 0%nat = Some Pending.
Proof. vm_compute. repeat split. Qed.

(** The scenario of the specification: two relays return revisions of one
    replaceable event, relay B's copy being the later one; [fetchEvents]
    resolves with relay B's copy alone, in either arrival order. *)
Example fetchEvents_later_copy_wins :
  fetchEvents sample_tagId true sample_client
    [SEvent copy_from_relay_A; SEvent copy_from_relay_B; SEose]
  = Fulfilled [set_ndk 1%nat copy_from_relay_B]
  ∧ fetchEvents sample_tagId true sample_client
      [SEvent copy_from_relay_B; SEvent copy_from_relay_A; SEose]
    = Fulfilled [set_ndk 1%nat copy_from_relay_B].
Proof. vm_compute. by split. Qed.

(** * Further properties of the client *)

(** X1. An empty [devWriteRelayUrls] array is truthy: the constructor builds an
    empty dev-override set from it, and [publish] without an explicit relay
    set hands the event to that empty set. Whenever [devWriteRelayUrls] is
    given, the set computed from the event is not consulted. *)
Theorem publish_dev_override_shadows_computed
    (calculate calculate' : NDK → NDKEvent → NDKRelaySet)
    (ref : NDKRef) (opts : NDKConstructorParams) (urls : list string)
    (event : NDKEvent) :
  devWriteRelayUrls opts = Some urls →
  publish calculate (NDK_new ref opts) event None
  = relaySet_publish (fromRelayUrls urls) event
  ∧ publish calculate (NDK_new ref opts) event None
    = publish calculate' (NDK_new ref opts) event None
  ∧ (urls = [] → relays (fromRelayUrls urls) = ∅).
Proof.
  intros Hurls. unfold publish, NDK_new; simpl. rewrite Hurls.
  repeat split. by intros ->.
Qed.

Lemma fetchEvents_resolved (tagIdOf : NostrEvent → string)
    (tieKeepsExisting : bool) (this : NDK) (observed : list NDKEvent)
    (later : list Signal) :
  fetchEvents tagIdOf tieKeepsExisting this
    ((SEvent <$> observed) ++ SEose :: later)
  = Fulfilled
      (values (events (fetchEvents_run tagIdOf tieKeepsExisting this
                         (SEvent <$> observed)))).
Proof.
  destruct (fetchEvents_accumulates tagIdOf tieKeepsExisting this observed)
    as [Hpending _].
  unfold fetchEvents, fetchEvents_run. rewrite foldl_app; simpl.
  fold (fetchEvents_run tagIdOf tieKeepsExisting this (SEvent <$> observed)).
  rewrite fetched_settled; simpl; by rewrite Hpending.
Qed.

Lemma fetchEvents_dom (tagIdOf : NostrEvent → string)
    (tieKeepsExisting : bool) (this : NDK) (observed : list NDKEvent) :
  dom (events (fetchEvents_run tagIdOf tieKeepsExisting this
                 (SEvent <$> observed)))
  = list_to_set (tagId tagIdOf <$> observed).
Proof.
  destruct (fetchEvents_accumulates tagIdOf tieKeepsExisting this observed)
    as [_ Hmap].
  apply set_eq. intros key.
  rewrite elem_of_dom, Hmap, fmap_is_Some, elem_of_list_to_set.
  apply merge_duplicates_is_Some.
Qed.

Lemma size_list_to_set_bound (keys : list string) :
  (size (list_to_set keys : gset string) ≤ length keys)%nat.
Proof.
  unfold size, set_size; simpl. apply submseteq_length, NoDup_submseteq.
  - apply NoDup_elements.
  - intros key. by rewrite elem_of_elements, elem_of_list_to_set.
Qed.

(** X2. The collection [fetchEvents] resolves with has as many entries as there
    are distinct identity keys among the events delivered before
    stream-end; when stream-end comes first, it is the empty collection. *)
Theorem fetchEvents_counts_identities
    (tagIdOf : NostrEvent → string) (tieKeepsExisting : bool)
    (this : NDK) (observed : list NDKEvent) (later : list Signal) :
  ∃ result,
    fetchEvents tagIdOf tieKeepsExisting this
      ((SEvent <$> observed) ++ SEose :: later) = Fulfilled result
    ∧ length result
      = size (list_to_set (tagId tagIdOf <$> observed) : gset string)
    ∧ (length result ≤ length observed)%nat
    ∧ (result = [] ↔ observed = []).
Proof.
  eexists. split; [apply fetchEvents_resolved|].
  set (m := events (fetchEvents_run tagIdOf tieKeepsExisting this
                      (SEvent <$> observed))).
  assert (Hlen : length (values m)
                 = size (list_to_set (tagId tagIdOf <$> observed)
                          : gset string)).
  { unfold values. rewrite length_fmap, length_map_to_list.
    rewrite <- (fetchEvents_dom tagIdOf tieKeepsExisting this observed).
    symmetry. apply size_dom. }
  split; [exact Hlen|]. split.
  - rewrite Hlen.
    etransitivity; [apply size_list_to_set_bound|]. by rewrite length_fmap.
  - split.
    + intros Hnil. rewrite Hnil in Hlen; simpl in Hlen.
      symmetry in Hlen. apply size_empty_inv in Hlen.
      destruct observed as [|event observed]; [done|].
      exfalso. simpl in Hlen.
      apply (not_elem_of_empty (C := gset string) (tagId tagIdOf event)).
      apply Hlen, elem_of_union. left. by apply elem_of_singleton.
    + intros ->. done.
Qed.

(** X3. The order in which the relays deliver their copies does not matter, as
    long as two copies of one identity with the same timestamp are the same
    event: any two arrival orders of the same events resolve [fetchEvents]
    with the same collection. *)
Theorem fetchEvents_arrival_order_irrelevant
    (tagIdOf : NostrEvent → string) (tieKeepsExisting : bool)
    (this : NDK) (observed observed' : list NDKEvent)
    (later later' : list Signal) :
  observed ≡ₚ observed' →
  (∀ a b, a ∈ observed → b ∈ observed →
     tagId tagIdOf a = tagId tagIdOf b →
     created_at (rawEvent a) = created_at (rawEvent b) →
     rawEvent a = rawEvent b) →
  fetchEvents tagIdOf tieKeepsExisting this
    ((SEvent <$> observed) ++ SEose :: later)
  = fetchEvents tagIdOf tieKeepsExisting this
      ((SEvent <$> observed') ++ SEose :: later').
Proof.
  intros Hperm Hties. rewrite !fetchEvents_resolved. do 2 f_equal.
  apply map_eq. intros key.
  destruct (fetchEvents_accumulates tagIdOf tieKeepsExisting this observed)
    as [_ ->].
  destruct (fetchEvents_accumulates tagIdOf tieKeepsExisting this observed')
    as [_ ->].
  pose proof (merge_duplicates_is_Some tagIdOf tieKeepsExisting key observed)
    as Hsome.
  pose proof (merge_duplicates_is_Some tagIdOf tieKeepsExisting key observed')
    as Hsome'.
  assert (Hmem : ∀ x : NDKEvent, x ∈ observed ↔ x ∈ observed')
    by (intros x; by rewrite Hperm).
  assert (Hkeys : key ∈ tagId tagIdOf <$> observed
                  ↔ key ∈ tagId tagIdOf <$> observed')
    by (by rewrite Hperm).
  destruct (merge_duplicates tagIdOf tieKeepsExisting key observed)
    as [kept|] eqn:Hkept;
  destruct (merge_duplicates tagIdOf tieKeepsExisting key observed')
    as [kept'|] eqn:Hkept'; simpl.
  - apply merge_duplicates_Some in Hkept as (Hk & Hin & Hmax).
    apply merge_duplicates_Some in Hkept' as (Hk' & Hin' & Hmax').
    apply Hmem in Hin'.
    assert (Hraw : rawEvent kept = rawEvent kept').
    { apply Hties; [done|done|congruence|].
      apply Z.le_antisymm.
      - apply Hmax'; [by apply Hmem|done].
      - by apply Hmax. }
    unfold set_ndk. by rewrite Hraw.
  - exfalso.
    assert (H : is_Some (@None NDKEvent))
      by (apply Hsome', Hkeys, Hsome; eauto).
    by destruct H.
  - exfalso.
    assert (H : is_Some (@None NDKEvent))
      by (apply Hsome, Hkeys, Hsome'; eauto).
    by destruct H.
  - done.
Qed.

Lemma fetchEvents_arrival_order_irrelevant_witness :
  [copy_from_relay_A; copy_from_relay_B]
    ≡ₚ [copy_from_relay_B; copy_from_relay_A]
  ∧ fetchEvents sample_tagId false sample_client
      ((SEvent <$> [copy_from_relay_A; copy_from_relay_B]) ++ SEose :: [])
    = fetchEvents sample_tagId false sample_client
        ((SEvent <$> [copy_from_relay_B; copy_from_relay_A])
           ++ SEose :: [SEose]).
Proof.
  split; [apply Permutation_swap|].
  apply fetchEvents_arrival_order_irrelevant; [apply Permutation_swap|].
  intros a b Ha Hb _ Htime.
  apply elem_of_cons in Ha as [-> | Ha];
    [|apply list_elem_of_singleton in Ha as ->];
    (apply elem_of_cons in Hb as [-> | Hb];
       [|apply list_elem_of_singleton in Hb as ->]);
    first [reflexivity | discriminate Htime].
Defined.

(** With equal timestamps on different copies the tie rule decides, and the
    arrival order shows in the result. *)
Example fetchEvents_tie_follows_arrival_order :
  fetchEvents sample_tagId true sample_client
    [SEvent copy_from_relay_B; SEvent copy_from_relay_C; SEose]
  = Fulfilled [set_ndk 1%nat copy_from_relay_B]
  ∧ fetchEvents sample_tagId true sample_client
      [SEvent copy_from_relay_C; SEvent copy_from_relay_B; SEose]
    = Fulfilled [set_ndk 1%nat copy_from_relay_C].
Proof. vm_compute. by split. Qed.

Lemma publish_dev_override_shadows_computed_witness :
  devWriteRelayUrls options_empty_dev_relays = Some []
  ∧ publish (fun _ _ => fromRelayUrls ["wss://relay.example"])
      (NDK_new 1%nat options_empty_dev_relays) copy_from_relay_A None
    = relaySet_publish (fromRelayUrls []) copy_from_relay_A.
Proof.
  split; [reflexivity|].
  exact (proj1 (publish_dev_override_shadows_computed
                  (fun _ _ => fromRelayUrls ["wss://relay.example"])
                  (fun _ _ => fromRelayUrls [])
                  1%nat options_empty_dev_relays [] copy_from_relay_A
                  eq_refl)).
Defined.

(** * Further properties of the remote signer *)

Section Promises.

Variable JSON_parse : string → option JSValue.

Lemma listener_apply_settled (l : Listener) (response : NDKRpcResponse)
    (q : Promise Value) :
  settled q = true → listener_apply JSON_parse l response q = q.
Proof.
  intros Hq. destruct l; simpl.
  - unfold connect_listener. case_bool_decide;
      [by apply resolve_settled|by apply reject_settled].
  - unfold sign_listener. repeat case_match;
      first [done | by apply resolve_settled | by apply reject_settled].
Qed.

Lemma run_listener_settled (response : NDKRpcResponse)
    (h : list (Promise Value)) (l : Listener) (p : nat) (q : Promise Value) :
  h !! p = Some q → settled q = true →
  run_listener JSON_parse response h l !! p = Some q.
Proof.
  intros Hp Hq.
  destruct (decide (listener_promise l = p)) as [<- | Hne].
  - rewrite run_listener_own, Hp; simpl.
    by rewrite listener_apply_settled.
  - by rewrite run_listener_other.
Qed.

Lemma run_listeners_settled (response : NDKRpcResponse)
    (ls : list Listener) (h : list (Promise Value)) (p : nat)
    (q : Promise Value) :
  h !! p = Some q → settled q = true →
  foldl (run_listener JSON_parse response) h ls !! p = Some q.
Proof.
  revert h. induction ls as [|l ls IH]; intros h Hp Hq; [done|].
  simpl. apply IH; [|done]. by apply run_listener_settled.
Qed.

Lemma receive_all_requests (rt : Runtime) (responses : list NDKRpcResponse) :
  rpc_requests (receive_all JSON_parse rt responses) = rpc_requests rt
  ∧ rpc_subscriptions (receive_all JSON_parse rt responses)
    = rpc_subscriptions rt.
Proof.
  revert rt. induction responses as [|r responses IH]; intros rt; [done|].
  unfold receive_all; simpl.
  fold (receive_all JSON_parse (receive JSON_parse rt r) responses).
  destruct (IH (receive JSON_parse rt r)) as [-> ->]. done.
Qed.

End Promises.

(** X4. A promise of the signer that is settled stays as it is under any
    responses, in any state of the RPC layer: no listener, whatever its
    correlation id and however often it is registered, settles a promise a
    second time. *)
Theorem settled_promise_is_final
    (JSON_parse : string → option JSValue) (rt : Runtime) (p : nat)
    (q : Promise Value) (responses : list NDKRpcResponse) :
  heap rt !! p = Some q →
  settled q = true →
  heap (receive_all JSON_parse rt responses) !! p = Some q.
Proof.
  revert rt. induction responses as [|r responses IH]; intros rt Hp Hq;
    [done|].
  unfold receive_all; simpl.
  fold (receive_all JSON_parse (receive JSON_parse rt r) responses).
  apply IH; [|done]. unfold receive, rpc_emit; simpl.
  by apply run_listeners_settled.
Qed.

(** X5. Receiving the same response again, as when several relays forward it,
    changes nothing: the second delivery finds no listener. *)
Theorem receive_again_changes_nothing
    (JSON_parse : string → option JSValue) (rt : Runtime)
    (response : NDKRpcResponse) :
  receive JSON_parse (receive JSON_parse rt response) response
  = receive JSON_parse rt response.
Proof.
  unfold receive, rpc_emit; simpl.
  rewrite lookup_delete_eq; simpl. by rewrite delete_delete_eq.
Qed.

(** X6. Responses never make the signer send or subscribe again: after a call
    and any responses, the requests handed to the RPC layer are those from
    before plus the one request of the call, addressed to the remote public
    key under the call's correlation id. [sign] opens no subscription;
    [blockUntilReady] opens the one subscription for events of kind 24133
    tagged with the local public key. *)
Theorem one_request_per_call
    (JSON_parse : string → option JSValue)
    (JSON_stringify : NostrEvent → string)
    (hexpubkey_of : NDKUser → string)
    (this : NDKNip46Signer) (event : NostrEvent) (connectId : string)
    (rt : Runtime) (localUser : NDKUser)
    (responses : list NDKRpcResponse) :
  signer_user (localSigner this) = Fulfilled localUser →
  let signed :=
    receive_all JSON_parse (sign JSON_stringify this event connectId rt).2
      responses in
  let connected :=
    receive_all JSON_parse (blockUntilReady hexpubkey_of this connectId rt).2
      responses in
  rpc_requests signed
  = rpc_requests rt ++
      [{| request_id := connectId; request_target := remotePubkey this;
          request_method := "sign_event";
          request_params := [JSON_stringify event] |}]
  ∧ rpc_subscriptions signed = rpc_subscriptions rt
  ∧ rpc_requests connected
    = rpc_requests rt ++
        [{| request_id := connectId; request_target := remotePubkey this;
            request_method := "connect";
            request_params := [hexpubkey_of localUser] |}]
  ∧ rpc_subscriptions connected
    = rpc_subscriptions rt ++
        [{| kinds := [24133]; authors := []; ids := [];
            p_tags := [hexpubkey_of localUser]; limit := None |}].
Proof.
  intros Huser signed connected. unfold signed, connected.
  destruct (receive_all_requests JSON_parse
              (sign JSON_stringify this event connectId rt).2 responses)
    as [-> ->].
  destruct (receive_all_requests JSON_parse
              (blockUntilReady hexpubkey_of this connectId rt).2 responses)
    as [-> ->].
  unfold blockUntilReady. rewrite Huser. done.
Qed.

(** A later call, whatever its correlation id, leaves an outstanding
    handle registered. *)
Lemma registered_later_call (name name' : string) (l l' : Listener)
    (rt : Runtime) :
  registered name l rt →
  listener_promise l' = length (heap rt) →
  registered name l (once name' l' (new_promise rt).2).
Proof.
  intros (Hheap & (before & after & Hls & Hothers) & Hrest) Hl'.
  assert (Hlt : (listener_promise l < length (heap rt))%nat)
    by (eapply lookup_lt_Some; exact Hheap).
  assert (Hne : listener_promise l' ≠ listener_promise l) by lia.
  split; [|split].
  - simpl. by rewrite lookup_app_l.
  - simpl. destruct (decide (name' = name)) as [-> | Hname].
    + exists before, (after ++ [l']). rewrite lookup_insert_eq, Hls; simpl.
      split; [by rewrite <- app_assoc|].
      rewrite app_assoc. apply Forall_app. split; [done|].
      by apply Forall_singleton.
    + exists before, after. by rewrite lookup_insert_ne.
  - simpl. destruct (decide (name' = name)) as [-> | Hname].
    + by rewrite delete_insert_eq.
    + rewrite delete_insert_ne by done. apply map_Forall_insert_2; [|done].
      apply Forall_app. split; [|by apply Forall_singleton].
      destruct (rpc_listeners rt !! name') as [ls|] eqn:Hls'; simpl; [|done].
      apply (Hrest name'). by rewrite lookup_delete_ne.
Qed.

(** X7. When [user()] of the local signer does not resolve, [blockUntilReady]
    stops there: it rejects with the same reason (or stays pending with
    it), and it has opened no subscription, registered no listener and sent
    no request, whatever responses arrive. *)
Theorem blockUntilReady_without_local_user
    (JSON_parse : string → option JSValue)
    (hexpubkey_of : NDKUser → string)
    (this : NDKNip46Signer) (connectId : string) (rt : Runtime)
    (R : Type) (sent : Promise R) (responses : list NDKRpcResponse) :
  (∀ localUser, signer_user (localSigner this) ≠ Fulfilled localUser) →
  let call := blockUntilReady hexpubkey_of this connectId rt in
  call.2 = rt
  ∧ outcome sent call.1 (receive_all JSON_parse call.2 responses)
    = match signer_user (localSigner this) with
      | Rejected reason => Rejected reason
      | _ => Pending
      end.
Proof.
  intros Hno call. unfold call, blockUntilReady.
  destruct (signer_user (localSigner this)) as [|localUser|reason];
    [done| |done].
  by destruct (Hno localUser).
Qed.

(** X8. A first response to the connect request whose [result] is not ["ack"]
    rejects [blockUntilReady] with the response's [error], and with
    [undefined] when the response has none. *)
Theorem blockUntilReady_rejects_without_ack
    (JSON_parse : string → option JSValue)
    (hexpubkey_of : NDKUser → string)
    (this : NDKNip46Signer) (connectId : string) (rt : Runtime)
    (localUser : NDKUser) (earlier : list NDKRpcResponse)
    (response : NDKRpcResponse) (later : list NDKRpcResponse)
    (R : Type) (v : R) :
  wf rt →
  signer_user (localSigner this) = Fulfilled localUser →
  Forall (fun r => response_id r ≠ connectId) earlier →
  response_id response = connectId →
  response_result response ≠ Some "ack" →
  let call := blockUntilReady hexpubkey_of this connectId rt in
  outcome (Fulfilled v) call.1
    (receive_all JSON_parse call.2 (earlier ++ response :: later))
  = Rejected (js_string (response_error response)).
Proof.
  intros Hwf Huser Hearlier Hid Hack call.
  destruct (blockUntilReady_registered hexpubkey_of this connectId rt
              localUser Hwf Huser) as (Hcall & Hreg & _).
  destruct (handle_settled_by_first_match JSON_parse connectId _ _
              earlier response later Hreg Hearlier Hid) as [Hheap _].
  unfold call. rewrite Hcall. simpl in Hheap.
  rewrite (outcome_Later _ _ _ _ Hheap).
  unfold connect_listener. by rewrite bool_decide_eq_false_2.
Qed.

Lemma js_member_missing (members : list (string * JSValue)) (name : string) :
  Forall (fun kv => kv.1 ≠ name) members →
  js_member (JObject members) name = Some JUndefined.
Proof.
  intros Hmembers. unfold js_member. f_equal.
  assert (Hfold : ∀ acc,
    foldl (fun acc kv => if String.eqb kv.1 name then Some kv.2 else acc)
      acc members = acc).
  { induction Hmembers as [|kv members Hkv _ IH]; intros acc; [done|].
    simpl. apply String.eqb_neq in Hkv. rewrite Hkv. apply IH. }
  by rewrite Hfold.
Qed.

(** X9. A first response without error whose [result] parses to a JSON object
    that has no [sig] member resolves the [sign] call all the same: with
    [undefined] in place of a signature. *)
Theorem sign_resolves_undefined_without_sig
    (JSON_parse : string → option JSValue)
    (JSON_stringify : NostrEvent → string)
    (this : NDKNip46Signer) (event : NostrEvent) (connectId : string)
    (rt : Runtime) (earlier : list NDKRpcResponse)
    (response : NDKRpcResponse) (later : list NDKRpcResponse)
    (R : Type) (v : R) (members : list (string * JSValue)) :
  wf rt →
  Forall (fun r => response_id r ≠ connectId) earlier →
  response_id response = connectId →
  truthy (response_error response) = false →
  response_result response ≫= JSON_parse = Some (JObject members) →
  Forall (fun kv => kv.1 ≠ "sig") members →
  let call := sign JSON_stringify this event connectId rt in
  outcome (Fulfilled v) call.1
    (receive_all JSON_parse call.2 (earlier ++ response :: later))
  = Fulfilled (VJS JUndefined).
Proof.
  intros Hwf Hearlier Hid Hfalsy Hjson Hmembers call.
  destruct (sign_registered JSON_stringify this event connectId rt Hwf)
    as (Hcall & Hreg & _).
  destruct (handle_settled_by_first_match JSON_parse connectId _ _
              earlier response later Hreg Hearlier Hid) as [Hheap _].
  unfold call. rewrite Hcall. simpl in Hheap.
  rewrite (outcome_Later _ _ _ _ Hheap).
  unfold sign_listener.
  by rewrite Hfalsy, Hjson, (js_member_missing _ _ Hmembers).
Qed.

Lemma two_sign_calls_registered
    (JSON_stringify : NostrEvent → string)
    (this : NDKNip46Signer) (event1 event2 : NostrEvent)
    (id1 id2 : string) (rt : Runtime) :
  wf rt →
  let first := sign JSON_stringify this event1 id1 rt in
  let second := sign JSON_stringify this event2 id2 first.2 in
  first.1 = Later (length (heap rt))
  ∧ second.1 = Later (S (length (heap rt)))
  ∧ registered (response_event id1) (SignListener (length (heap rt)))
      second.2
  ∧ registered (response_event id2) (SignListener (S (length (heap rt))))
      second.2.
Proof.
  intros Hwf first second.
  destruct (sign_registered JSON_stringify this event1 id1 rt Hwf)
    as (Hcall1 & Hreg1 & Hwf1).
  destruct (sign_registered JSON_stringify this event2 id2 first.2 Hwf1)
    as (Hcall2 & Hreg2 & _).
  assert (Hlen : length (heap first.2) = S (length (heap rt)))
    by (simpl; rewrite length_app; simpl; lia).
  fold first in Hreg1. fold second in Hcall2, Hreg2. rewrite Hlen in *.
  split; [done|]. split; [done|]. split; [|done].
  apply (registered_later_call _ (response_event id2) _
           (SignListener (length (heap first.2))) first.2 Hreg1).
  done.
Qed.


(** X11. When the random correlation ids of two outstanding [sign] calls
    collide, the first response with that id settles both calls, and in
    the same way: a signature returned for one event is handed to the
    caller that asked for the other as well. *)
Theorem colliding_correlation_ids_share_response
    (JSON_parse : string → option JSValue)
    (JSON_stringify : NostrEvent → string)
    (this : NDKNip46Signer) (event1 event2 : NostrEvent)
    (connectId : string) (rt : Runtime)
    (earlier : list NDKRpcResponse) (response : NDKRpcResponse)
    (later : list NDKRpcResponse) (R : Type) (v : R) :
  wf rt →
  Forall (fun r => response_id r ≠ connectId) earlier →
  response_id response = connectId →
  let first := sign JSON_stringify this event1 connectId rt in
  let second := sign JSON_stringify this event2 connectId first.2 in
  let rt' :=
    receive_all JSON_parse second.2 (earlier ++ response :: later) in
  outcome (Fulfilled v) first.1 rt'
  = sign_listener JSON_parse response Pending
  ∧ outcome (Fulfilled v) second.1 rt'
    = sign_listener JSON_parse response Pending.
Proof.
  intros Hwf Hearlier Hid first second rt'.
  destruct (two_sign_calls_registered JSON_stringify this event1 event2
              connectId connectId rt Hwf)
    as (Hcall1 & Hcall2 & Hreg1 & Hreg2).
  unfold rt', second, first. rewrite Hcall2, Hcall1.
  destruct (handle_settled_by_first_match JSON_parse connectId _ _
              earlier response later Hreg1 Hearlier Hid) as [Hheap1 _].
  destruct (handle_settled_by_first_match JSON_parse connectId _ _
              earlier response later Hreg2 Hearlier Hid) as [Hheap2 _].
  simpl in Hheap1, Hheap2. split.
  - exact (outcome_Later _ _ _ _ Hheap1).
  - exact (outcome_Later _ _ _ _ Hheap2).
Qed.

(** ** Further runs on sample data *)

Lemma settled_promise_is_final_witness :
  let rt :=
    receive_all JSON_parse_fragment
      (sign sample_stringify sample_signer sample_event "k3x9" Runtime_new).2
      [response_signed] in
  heap rt !! 0%nat = Some (Fulfilled (VJS (JString "a1b2")))
  ∧ settled (Fulfilled (VJS (JString "a1b2"))) = true
  ∧ heap (receive_all JSON_parse_fragment rt
            [response_denied; response_other; response_empty_error])
      !! 0%nat
    = Some (Fulfilled (VJS (JString "a1b2"))).
Proof.
  split; [reflexivity|]. split; [reflexivity|].
  apply settled_promise_is_final; reflexivity.
Defined.

Lemma one_request_per_call_witness :
  signer_user (localSigner sample_signer) = Fulfilled sample_user
  ∧ rpc_requests
      (receive_all JSON_parse_fragment
         (blockUntilReady sample_hexpubkey sample_signer "k3x9"
            Runtime_new).2
         [response_other; response_ack; response_ack])
    = [{| request_id := "k3x9"; request_target := "f9e8d7";
          request_method := "connect"; request_params := ["a0b1c2"] |}].
Proof.
  split; [reflexivity|].
  exact (proj1 (proj2 (proj2
           (one_request_per_call JSON_parse_fragment sample_stringify
              sample_hexpubkey sample_signer sample_event "k3x9"
              Runtime_new sample_user
              [response_other; response_ack; response_ack] eq_refl)))).
Defined.

Lemma blockUntilReady_without_local_user_witness :
  (∀ localUser,
     signer_user (localSigner locked_signer) ≠ Fulfilled localUser)
  ∧ (let call :=
       blockUntilReady sample_hexpubkey locked_signer "k3x9" Runtime_new in
     call.2 = Runtime_new
     ∧ outcome (Fulfilled ()) call.1
         (receive_all JSON_parse_fragment call.2 [response_ack])
       = Rejected (Error "locked")).
Proof.
  assert (Hno : ∀ localUser,
            signer_user (localSigner locked_signer) ≠ Fulfilled localUser)
    by (intros localUser; discriminate).
  split; [exact Hno|].
  exact (blockUntilReady_without_local_user JSON_parse_fragment
           sample_hexpubkey locked_signer "k3x9" Runtime_new unit
           (Fulfilled ()) [response_ack] Hno).
Defined.

Lemma blockUntilReady_rejects_without_ack_witness :
  wf Runtime_new
  ∧ signer_user (localSigner sample_signer) = Fulfilled sample_user
  ∧ Forall (fun r => response_id r ≠ "k3x9") [response_other]
  ∧ response_id response_refused = "k3x9"
  ∧ response_result response_refused ≠ Some "ack"
  ∧ (let call :=
       blockUntilReady sample_hexpubkey sample_signer "k3x9" Runtime_new in
     outcome (Fulfilled ()) call.1
       (receive_all JSON_parse_fragment call.2
          ([response_other] ++ response_refused :: [response_ack]))
     = Rejected JUndefined).
Proof.
  assert (Hother : Forall (fun r => response_id r ≠ "k3x9") [response_other])
    by (apply Forall_singleton; discriminate).
  assert (Hnack : response_result response_refused ≠ Some "ack")
    by discriminate.
  split; [exact wf_Runtime_new|]. split; [reflexivity|].
  split; [exact Hother|]. split; [reflexivity|]. split; [exact Hnack|].
  exact (blockUntilReady_rejects_without_ack JSON_parse_fragment
           sample_hexpubkey sample_signer "k3x9" Runtime_new sample_user
           [response_other] response_refused [response_ack] unit ()
           wf_Runtime_new eq_refl Hother eq_refl Hnack).
Defined.

Lemma sign_resolves_undefined_without_sig_witness :
  wf Runtime_new
  ∧ Forall (fun r => response_id r ≠ "k3x9") [response_other]
  ∧ response_id response_empty_object = "k3x9"
  ∧ truthy (response_error response_empty_object) = false
  ∧ response_result response_empty_object ≫= JSON_parse_fragment
    = Some (JObject [])
  ∧ Forall (fun kv : string * JSValue => kv.1 ≠ "sig") []
  ∧ (let call :=
       sign sample_stringify sample_signer sample_event "k3x9" Runtime_new in
     outcome (Fulfilled ()) call.1
       (receive_all JSON_parse_fragment call.2
          ([response_other] ++ response_empty_object :: [response_signed]))
     = Fulfilled (VJS JUndefined)).
Proof.
  assert (Hother : Forall (fun r => response_id r ≠ "k3x9") [response_other])
    by (apply Forall_singleton; discriminate).
  split; [exact wf_Runtime_new|]. split; [exact Hother|].
  split; [reflexivity|]. split; [reflexivity|]. split; [reflexivity|].
  split; [apply Forall_nil_2|].
  exact (sign_resolves_undefined_without_sig JSON_parse_fragment
           sample_stringify sample_signer sample_event "k3x9" Runtime_new
           [response_other] response_empty_object [response_signed]
           unit () [] wf_Runtime_new Hother eq_refl eq_refl eq_refl
           (Forall_nil_2 _)).
Defined.


Lemma colliding_correlation_ids_share_response_witness :
  wf Runtime_new
  ∧ Forall (fun r => response_id r ≠ "k3x9") [response_other]
  ∧ response_id response_signed = "k3x9"
  ∧ (let first :=
       sign sample_stringify sample_signer sample_event "k3x9" Runtime_new in
     let second :=
       sign sample_stringify sample_signer other_event "k3x9" first.2 in
     outcome (Fulfilled ()) second.1
       (receive_all JSON_parse_fragment second.2
          ([response_other] ++ response_signed :: []))
     = sign_listener JSON_parse_fragment response_signed Pending).
Proof.
  assert (Hother : Forall (fun r => response_id r ≠ "k3x9") [response_other])
    by (apply Forall_singleton; discriminate).
  split; [exact wf_Runtime_new|]. split; [exact Hother|].
  split; [reflexivity|].
  exact (proj2 (colliding_correlation_ids_share_response
                  JSON_parse_fragment sample_stringify sample_signer
                  sample_event other_event "k3x9" Runtime_new
                  [response_other] response_signed [] unit ()
                  wf_Runtime_new Hother eq_refl)).
Defined.

(** Both colliding calls end up with the signature of the one response. *)
Example colliding_calls_get_one_signature :
  let first :=
    sign sample_stringify sample_signer sample_event "k3x9" Runtime_new in
  let second :=
    sign sample_stringify sample_signer other_event "k3x9" first.2 in
  let rt' := receive_all JSON_parse_fragment second.2 [response_signed] in
  outcome (Fulfilled ()) first.1 rt' = Fulfilled (VJS (JString "a1b2"))
  ∧ outcome (Fulfilled ()) second.1 rt' = Fulfilled (VJS (JString "a1b2")).
Proof. vm_compute. by split. Qed.
